(** * Database reactivation: conversation orchestration core and dashboard

    The orchestration core (state machine, scheduler, inbound pipeline,
    composer, classifier) of the backend is modelled from the spec; the
    dashboard pieces (statistics, lead import dialog) are embedded from the
    frontend sources. *)

From Stdlib Require Import String Ascii List ZArith Lia Bool Arith.
From Stdlib Require QArith Qround DecimalString.
Import ListNotations.
Open Scope string_scope.
Open Scope nat_scope.

(** ** Conversation state machine *)

(** Modelled from the spec: the conversation states of the backend
    (§4.1), also the strings the frontend switches on in [getStateColor]. *)
Inductive conv_state := New | Engaged | Booked | OptedOut | Unresponsive.

Definition conv_state_eqb (a b : conv_state) : bool :=
  match a, b with
  | New, New | Engaged, Engaged | Booked, Booked
  | OptedOut, OptedOut | Unresponsive, Unresponsive => true
  | _, _ => false
  end.

Lemma conv_state_eqb_eq a b : conv_state_eqb a b = true <-> a = b.
Proof. destruct a, b; simpl; split; congruence. Qed.

Definition is_terminal (s : conv_state) : bool :=
  match s with Booked | OptedOut => true | _ => false end.

(** Modelled from the spec: the closed intent variant of the classifier. *)
Inductive intent := IOptOut | IBookingConfirmed | IQuestion | IGeneric.

(** Modelled from the spec: the events accepted by the state machine. *)
Inductive event :=
| OutboundSent
| InboundReceived (i : intent)
| OptOutDetected
| Timeout
| ReengagementExceeded.

(** Modelled from the spec: side-effect instructions of a transition. *)
Inductive side_effect :=
| NoEffect
| ScheduleReply
| MarkBookingCompleted    (* mark booking_completed, stop scheduling *)
| StopPermanently         (* opt-out *)
| StopActive              (* unresponsive: periodic re-engagement only *)
| StopEntirely.

Inductive transition_result :=
| Accepted (next : conv_state) (eff : side_effect)
| Rejected.

(** Modelled from the spec: the transition table of §4.1. Terminal states
    reject every event; opt-out is accepted from every non-terminal state;
    every pair absent from the table is rejected. *)
Definition transition (s : conv_state) (e : event) : transition_result :=
  match s, e with
  | Booked, _ | OptedOut, _ => Rejected
  | _, InboundReceived IOptOut | _, OptOutDetected => Accepted OptedOut StopPermanently
  | New, OutboundSent => Accepted Engaged NoEffect
  | Engaged, InboundReceived IGeneric
  | Engaged, InboundReceived IQuestion => Accepted Engaged ScheduleReply
  | Engaged, InboundReceived IBookingConfirmed => Accepted Booked MarkBookingCompleted
  | Engaged, Timeout => Accepted Unresponsive StopActive
  | Unresponsive, InboundReceived _ => Accepted Engaged ScheduleReply
  | Unresponsive, ReengagementExceeded => Accepted Unresponsive StopEntirely
  | _, _ => Rejected
  end.

(** The table of §4.1 read row by row, as a relation. *)
Inductive table_row : conv_state -> event -> conv_state -> side_effect -> Prop :=
| row_new_sent : table_row New OutboundSent Engaged NoEffect
| row_engaged_generic : table_row Engaged (InboundReceived IGeneric) Engaged ScheduleReply
| row_engaged_question : table_row Engaged (InboundReceived IQuestion) Engaged ScheduleReply
| row_engaged_booking :
    table_row Engaged (InboundReceived IBookingConfirmed) Booked MarkBookingCompleted
| row_optout_inbound s :
    is_terminal s = false -> table_row s (InboundReceived IOptOut) OptedOut StopPermanently
| row_optout_detected s :
    is_terminal s = false -> table_row s OptOutDetected OptedOut StopPermanently
| row_engaged_timeout : table_row Engaged Timeout Unresponsive StopActive
| row_unresponsive_inbound i :
    i <> IOptOut -> table_row Unresponsive (InboundReceived i) Engaged ScheduleReply
| row_unresponsive_final :
    table_row Unresponsive ReengagementExceeded Unresponsive StopEntirely.

(** ** Data model *)

(** Modelled from the spec: Lead (§3), held by the core by id. *)
Record lead := mkLead {
  lead_id : nat;
  phone_number : string;
  name : string
}.

(** Modelled from the spec: Conversation (§3) with its scheduling flag and
    retry/failure counter. *)
Record conversation := mkConv {
  conv_id : nat;
  conv_lead : nat;
  state : conv_state;
  last_contact : option Z;
  booking_link_sent : bool;
  booking_completed : bool;
  reply_pending : bool;        (* outstanding scheduled reply *)
  delivery_impaired : nat
}.

Inductive direction := DirInbound | DirOutbound.

(** Modelled from the spec: Message (§3); [transport_id] is set only on
    inbound messages. *)
Record message := mkMessage {
  msg_conv : nat;
  msg_direction : direction;
  body : string;
  sent_at : Z;
  delivered : bool;
  transport_id : option string
}.

(** Modelled from the spec: inbound webhook event [{from, to, body, message_id}]. *)
Record payload := mkPayload {
  p_from : string;
  p_to : string;
  p_body : string;
  p_message_id : string
}.

(** The shared store together with the per-lead slot table. [trans_log]
    records every accepted state transition, [sent_log] every transport call
    that delivered a message. *)
Record sys := mkSys {
  leads : list lead;
  convs : list conversation;
  msgs : list message;
  seen_ids : list string;
  audit : list payload;
  trans_log : list (nat * conv_state * conv_state);
  sent_log : list (nat * string);
  held : list nat
}.

(** Record updates, written out field by field. *)
Definition set_convs (s : sys) (cs : list conversation) : sys :=
  mkSys (leads s) cs (msgs s) (seen_ids s) (audit s) (trans_log s) (sent_log s) (held s).
Definition add_msg (s : sys) (m : message) : sys :=
  mkSys (leads s) (convs s) (msgs s ++ [m]) (seen_ids s) (audit s) (trans_log s) (sent_log s) (held s).
Definition add_seen (s : sys) (t : string) : sys :=
  mkSys (leads s) (convs s) (msgs s) (t :: seen_ids s) (audit s) (trans_log s) (sent_log s) (held s).
Definition add_audit (s : sys) (p : payload) : sys :=
  mkSys (leads s) (convs s) (msgs s) (seen_ids s) (audit s ++ [p]) (trans_log s) (sent_log s) (held s).
Definition add_trans (s : sys) (t : nat * conv_state * conv_state) : sys :=
  mkSys (leads s) (convs s) (msgs s) (seen_ids s) (audit s) (trans_log s ++ [t]) (sent_log s) (held s).
Definition add_sent (s : sys) (x : nat * string) : sys :=
  mkSys (leads s) (convs s) (msgs s) (seen_ids s) (audit s) (trans_log s) (sent_log s ++ [x]) (held s).
Definition set_held (s : sys) (h : list nat) : sys :=
  mkSys (leads s) (convs s) (msgs s) (seen_ids s) (audit s) (trans_log s) (sent_log s) h.

Definition with_state (c : conversation) (st : conv_state) : conversation :=
  mkConv (conv_id c) (conv_lead c) st (last_contact c) (booking_link_sent c)
         (booking_completed c) (reply_pending c) (delivery_impaired c).
Definition with_pending (c : conversation) (b : bool) : conversation :=
  mkConv (conv_id c) (conv_lead c) (state c) (last_contact c) (booking_link_sent c)
         (booking_completed c) b (delivery_impaired c).
Definition with_booking_completed (c : conversation) : conversation :=
  mkConv (conv_id c) (conv_lead c) (state c) (last_contact c) (booking_link_sent c)
         true (reply_pending c) (delivery_impaired c).
Definition with_contact (c : conversation) (now : Z) : conversation :=
  mkConv (conv_id c) (conv_lead c) (state c) (Some now) (booking_link_sent c)
         (booking_completed c) (reply_pending c) (delivery_impaired c).
Definition bump_impaired (c : conversation) : conversation :=
  mkConv (conv_id c) (conv_lead c) (state c) (last_contact c) (booking_link_sent c)
         (booking_completed c) (reply_pending c) (S (delivery_impaired c)).

(** The Conversation of a Lead: the first one recorded for it. *)
Fixpoint find_conv (l : nat) (cs : list conversation) : option conversation :=
  match cs with
  | [] => None
  | c :: cs' => if conv_lead c =? l then Some c else find_conv l cs'
  end.

(** Replace the Conversation of a Lead. *)
Fixpoint set_conv (l : nat) (c' : conversation) (cs : list conversation) : list conversation :=
  match cs with
  | [] => []
  | c :: cs' => if conv_lead c =? l then c' :: cs' else c :: set_conv l c' cs'
  end.

Definition update_conv (s : sys) (c' : conversation) : sys :=
  set_convs s (set_conv (conv_lead c') c' (convs s)).

Fixpoint find_lead_by_phone (ph : string) (ls : list lead) : option lead :=
  match ls with
  | [] => None
  | l :: ls' => if String.eqb (phone_number l) ph then Some l else find_lead_by_phone ph ls'
  end.

Fixpoint find_lead (id : nat) (ls : list lead) : option lead :=
  match ls with
  | [] => None
  | l :: ls' => if lead_id l =? id then Some l else find_lead id ls'
  end.

Definition conv_messages (cid : nat) (ms : list message) : list message :=
  filter (fun m => msg_conv m =? cid) ms.

(** ** Configuration and external capabilities *)

Inductive trigger := TrigFirstContact | TrigReply | TrigReengage.

(** Modelled from the spec (§6, §9): the injected capabilities and tunable
    parameters of the core. [transport phone body k] is the outcome of the
    [k]-th attempt of a send. *)
Record env := mkEnv {
  generate : lead -> list message -> trigger -> option string;
  understand : string -> list message -> option intent;
  transport : string -> string -> nat -> bool;
  max_len : nat;
  max_retries : nat;
  base_delay : Z;
  cadence : Z;
  unresponsive_window : Z;
  rate_ceiling : nat
}.

(** ** Composer *)

Definition fallback_template (l : lead) (t : trigger) : string :=
  "Hi " ++ name l ++
  match t with
  | TrigFirstContact => ", it has been a while. Are you still interested in a quick call?"
  | TrigReply => ", thanks for your reply. You can book a call with us any time."
  | TrigReengage => ", just checking in. Would a short call this week suit you?"
  end.

Definition bound (n : nat) (s : string) : string := substring 0 n s.

Definition fallback_message (e : env) (l : lead) (t : trigger) : string :=
  bound (max_len e) (fallback_template l t).

(** Modelled from the spec (§4.4): generation through the external
    capability, maximum body length enforced, templated fallback on failure
    or empty content. *)
Definition compose (e : env) (l : lead) (hist : list message) (t : trigger) : string :=
  match generate e l hist t with
  | Some text =>
      if String.eqb text EmptyString then fallback_message e l t else bound (max_len e) text
  | None => fallback_message e l t
  end.

(** ** Intent classifier *)

Definition upper (a : ascii) : ascii :=
  let n := nat_of_ascii a in
  if (97 <=? n) && (n <=? 122) then ascii_of_nat (n - 32) else a.

Fixpoint upper_string (s : string) : string :=
  match s with
  | EmptyString => EmptyString
  | String a s' => String (upper a) (upper_string s')
  end.

Definition is_word_char (a : ascii) : bool :=
  let n := nat_of_ascii a in
  ((65 <=? n) && (n <=? 90)) || ((97 <=? n) && (n <=? 122)) || ((48 <=? n) && (n <=? 57)).

Definition flush (cur : list ascii) (ws : list string) : list string :=
  match cur with
  | [] => ws
  | _ => string_of_list_ascii (rev cur) :: ws
  end.

Fixpoint words_acc (s : string) (cur : list ascii) : list string :=
  match s with
  | EmptyString => flush cur []
  | String a s' =>
      if is_word_char a then words_acc s' (a :: cur) else flush cur (words_acc s' [])
  end.

Definition words (s : string) : list string := words_acc s [].

Fixpoint contains (pat s : string) : bool :=
  if String.prefix pat s then true
  else match s with EmptyString => false | String _ s' => contains pat s' end.

Definition stop_words : list string :=
  ["STOP"; "STOPALL"; "UNSUBSCRIBE"; "CANCEL"; "END"; "QUIT"].

Definition booking_phrases : list string :=
  ["I BOOKED"; "JUST BOOKED"; "BOOKED A CALL"; "BOOKED IT"; "CALL IS BOOKED"; "I SCHEDULED"].

Definition is_stop (b : string) : bool :=
  existsb (fun w => existsb (String.eqb w) stop_words) (words (upper_string b)).

Definition is_booking (b : string) : bool :=
  existsb (fun p => contains p (upper_string b)) booking_phrases.

(** Modelled from the spec (§4.4): the deterministic tier, stop-words before
    booking phrases. *)
Definition classify_rules (b : string) : option intent :=
  if is_stop b then Some IOptOut
  else if is_booking b then Some IBookingConfirmed
  else None.

(** Modelled from the spec (§4.4): only ambiguous bodies reach the external
    capability; the flag reports whether it was invoked. An unavailable
    capability leaves the body generic. *)
Definition classify (e : env) (b : string) (hist : list message) : intent * bool :=
  match classify_rules b with
  | Some i => (i, false)
  | None =>
      match understand e b hist with
      | Some i => (i, true)
      | None => (IGeneric, true)
      end
  end.

(** ** Transport retry with exponential backoff *)

(** Attempt [k] of a send, with [remaining] retries left; returns whether
    the message was delivered and the backoff delays waited. *)
Fixpoint attempt_from (tr : nat -> bool) (base : Z) (k remaining : nat) : bool * list Z :=
  if tr k then (true, [])
  else match remaining with
       | O => (false, [])
       | S r =>
           let '(ok, ds) := attempt_from tr base (S k) r in
           (ok, (base * 2 ^ Z.of_nat k)%Z :: ds)
       end.

(** Modelled from the spec (§4.2): retry bounded by [max_retries]. *)
Definition send_with_retry (e : env) (phone text : string) : bool * list Z :=
  attempt_from (transport e phone text) (base_delay e) 0 (max_retries e).

(** ** Per-lead execution slots *)

(** Modelled from the spec (§9): keyed slot table, acquired without blocking. *)
Definition try_acquire (h : list nat) (lid : nat) : option (list nat) :=
  if existsb (Nat.eqb lid) h then None else Some (lid :: h).

Definition release (lid : nat) (h : list nat) : list nat := remove Nat.eq_dec lid h.

(** ** Applying an event to a Conversation *)

Definition apply_effect (c : conversation) (eff : side_effect) : conversation :=
  match eff with
  | NoEffect => c
  | ScheduleReply => with_pending c true
  | MarkBookingCompleted => with_pending (with_booking_completed c) false
  | StopPermanently | StopActive | StopEntirely => with_pending c false
  end.

(** Modelled from the spec (§5): read state, validate, write the next state
    as one unit; a rejected event changes nothing. *)
Definition apply_event (s : sys) (c : conversation) (ev : event) : transition_result * sys :=
  match transition (state c) ev with
  | Rejected => (Rejected, s)
  | Accepted st eff =>
      (Accepted st eff,
       add_trans (update_conv s (apply_effect (with_state c st) eff)) (conv_id c, state c, st))
  end.

(** ** Outbound sends *)

Inductive send_result :=
| SendDelivered
| RejectedTerminal
| SlotBusy
| DeliveryImpaired
| NoConversation.

(** Modelled from the spec (§4.2): the transport call, preceded by the
    re-check of the state; on delivery the message is appended and a [new]
    Conversation takes the [outbound-sent] edge; after exhausted retries the
    delivery-impaired counter grows and nothing else changes. *)
Definition deliver (e : env) (now : Z) (s : sys) (l : lead) (c : conversation) (text : string)
  : send_result * sys :=
  if is_terminal (state c) then (RejectedTerminal, s) else
  let '(ok, _) := send_with_retry e (phone_number l) text in
  if ok then
    let s1 := add_sent (add_msg s (mkMessage (conv_id c) DirOutbound text now true None))
                       (lead_id l, text) in
    let c1 := with_pending (with_contact c now) false in
    match state c with
    | New => (SendDelivered, snd (apply_event (update_conv s1 c1) c1 OutboundSent))
    | _ => (SendDelivered, update_conv s1 c1)
    end
  else (DeliveryImpaired, update_conv s (bump_impaired c)).

Definition trigger_for (c : conversation) : trigger :=
  match state c with
  | New => TrigFirstContact
  | Unresponsive => TrigReengage
  | _ => TrigReply
  end.

(** Modelled from the spec (§4.2): one selected Lead of a sweep. The state
    is read again from the store, the slot is acquired or the Lead skipped. *)
Definition sched_execute (e : env) (now : Z) (s : sys) (lid : nat) : send_result * sys :=
  match find_lead lid (leads s), find_conv lid (convs s) with
  | Some l, Some c =>
      if is_terminal (state c) then (RejectedTerminal, s) else
      match try_acquire (held s) lid with
      | None => (SlotBusy, s)
      | Some h =>
          let text := compose e l (conv_messages (conv_id c) (msgs s)) (trigger_for c) in
          let '(r, s1) := deliver e now (set_held s h) l c text in
          (r, set_held s1 (release lid (held s1)))
      end
  | _, _ => (NoConversation, s)
  end.

Definition new_conv (s : sys) (lid : nat) : conversation :=
  mkConv (length (convs s)) lid New None false false false 0.

(** A Conversation is created on first contact only. *)
Definition get_or_create (s : sys) (lid : nat) : conversation * sys :=
  match find_conv lid (convs s) with
  | Some c => (c, s)
  | None => let c := new_conv s lid in (c, set_convs s (convs s ++ [c]))
  end.

(** Modelled from the spec (§6): [sendManualMessage(leadId, body)], bypassing
    the Composer but not the state check or the slot. *)
Definition send_manual (e : env) (now : Z) (s : sys) (lid : nat) (text : string)
  : send_result * sys :=
  match find_lead lid (leads s) with
  | None => (NoConversation, s)
  | Some l =>
      let '(c, s0) := get_or_create s lid in
      if is_terminal (state c) then (RejectedTerminal, s) else
      match try_acquire (held s0) lid with
      | None => (SlotBusy, s)
      | Some h =>
          let '(r, s1) := deliver e now (set_held s0 h) l c text in
          (r, set_held s1 (release lid (held s1)))
      end
  end.

(** ** Scheduler sweep *)

(** Modelled from the spec (§4.2): the due predicate. *)
Definition due (e : env) (now : Z) (c : conversation) : bool :=
  negb (is_terminal (state c)) &&
  match state c with
  | New => true
  | Engaged | Unresponsive => reply_pending c
  | _ => false
  end &&
  match last_contact c with
  | None => true
  | Some t => (cadence e <? now - t)%Z
  end.

Definition select_due (e : env) (now : Z) (s : sys) : list nat :=
  map conv_lead (firstn (rate_ceiling e) (filter (due e now) (convs s))).

Fixpoint run_selected (e : env) (now : Z) (s : sys) (lids : list nat) : list send_result * sys :=
  match lids with
  | [] => ([], s)
  | lid :: rest =>
      let '(r, s1) := sched_execute e now s lid in
      let '(rs, s2) := run_selected e now s1 rest in
      (r :: rs, s2)
  end.

Definition sweep (e : env) (now : Z) (s : sys) : list send_result * sys :=
  run_selected e now s (select_due e now s).

(** ** Inbound pipeline *)

Inductive webhook_result := Processed | DuplicateIgnored | UnknownContactRecorded.

(** Every outcome is acknowledged to the transport as a success. *)
Definition acknowledged_ok (r : webhook_result) : bool :=
  match r with Processed | DuplicateIgnored | UnknownContactRecorded => true end.

(** Modelled from the spec (§4.3): deduplicate, persist, classify, feed the
    state machine, then reply under the slot or leave the Conversation due. *)
Definition handle_inbound (e : env) (now : Z) (s : sys) (p : payload) : webhook_result * sys :=
  if existsb (String.eqb (p_message_id p)) (seen_ids s) then (DuplicateIgnored, s) else
  let s0 := add_seen s (p_message_id p) in
  match find_lead_by_phone (p_from p) (leads s0) with
  | None => (UnknownContactRecorded, add_audit s0 p)
  | Some l =>
      let '(c, s1) := get_or_create s0 (lead_id l) in
      let hist := conv_messages (conv_id c) (msgs s1) in
      let s2 := add_msg s1 (mkMessage (conv_id c) DirInbound (p_body p) now true
                                      (Some (p_message_id p))) in
      let i := fst (classify e (p_body p) hist) in
      match apply_event s2 c (InboundReceived i) with
      | (Accepted _ ScheduleReply, s3) =>
          match try_acquire (held s3) (lead_id l), find_conv (lead_id l) (convs s3) with
          | Some h, Some c3 =>
              let text := compose e l (conv_messages (conv_id c3) (msgs s3)) TrigReply in
              let '(_, s4) := deliver e now (set_held s3 h) l c3 text in
              (Processed, set_held s4 (release (lead_id l) (held s4)))
          | _, _ => (Processed, s3)
          end
      | (_, s3) => (Processed, s3)
      end
  end.

(** ** Timers *)

Definition timeout_check (e : env) (now : Z) (s : sys) (lid : nat) : sys :=
  match find_conv lid (convs s) with
  | Some c =>
      match state c, last_contact c with
      | Engaged, Some t =>
          if (unresponsive_window e <=? now - t)%Z then snd (apply_event s c Timeout) else s
      | _, _ => s
      end
  | None => s
  end.

Definition reengagement_exceeded (s : sys) (lid : nat) : sys :=
  match find_conv lid (convs s) with
  | Some c => snd (apply_event s c ReengagementExceeded)
  | None => s
  end.

(** ** Every operation of the core *)

Inductive op :=
| OpInbound (now : Z) (p : payload)
| OpSweep (now : Z)
| OpManual (now : Z) (lid : nat) (text : string)
| OpTimeout (now : Z) (lid : nat)
| OpReengageExceeded (lid : nat).

Definition run_op (e : env) (s : sys) (o : op) : sys :=
  match o with
  | OpInbound now p => snd (handle_inbound e now s p)
  | OpSweep now => snd (sweep e now s)
  | OpManual now lid text => snd (send_manual e now s lid text)
  | OpTimeout now lid => timeout_check e now s lid
  | OpReengageExceeded lid => reengagement_exceeded s lid
  end.

Definition run_ops (e : env) (s : sys) (os : list op) : sys := fold_left (run_op e) os s.

(** ** Concurrency of outbound sends *)

Inductive actor := SchedulerActor | PipelineActor | ManualActor.

(** Interleaving view of the slot discipline: a send is in flight between
    the acquisition of its Lead's slot and its completion (the transport call
    is a suspension point, §5). [w_due] lists the Leads whose Conversation
    the Inbound Pipeline marked due instead of replying. *)
Record world := mkWorld {
  w_held : list nat;
  w_inflight : list (nat * actor);
  w_due : list nat
}.

Inductive action :=
| SchedPick (lid : nat)        (* the sweep reaches a selected Lead *)
| InboundReply (lid : nat)     (* a transition asked to schedule a reply *)
| ManualSend (lid : nat)
| SendFinished (lid : nat).

Definition begin_send (w : world) (lid : nat) (a : actor) (h : list nat) : world :=
  mkWorld h ((lid, a) :: w_inflight w) (w_due w).

(** Modelled from the spec (§4.2, §4.3): acquisition is the only way a send
    begins; the Scheduler skips a busy Lead, the Inbound Pipeline marks it
    due, a manual send is refused. *)
Definition world_step (w : world) (x : action) : world :=
  match x with
  | SchedPick lid =>
      match try_acquire (w_held w) lid with
      | None => w
      | Some h => begin_send w lid SchedulerActor h
      end
  | InboundReply lid =>
      match try_acquire (w_held w) lid with
      | None => mkWorld (w_held w) (w_inflight w) (lid :: w_due w)
      | Some h => begin_send w lid PipelineActor h
      end
  | ManualSend lid =>
      match try_acquire (w_held w) lid with
      | None => w
      | Some h => begin_send w lid ManualActor h
      end
  | SendFinished lid =>
      if existsb (fun p => fst p =? lid) (w_inflight w)
      then mkWorld (release lid (w_held w))
                   (filter (fun p => negb (fst p =? lid)) (w_inflight w)) (w_due w)
      else w
  end.

Definition world_init : world := mkWorld [] [] [].

Definition run_world (xs : list action) : world := fold_left world_step xs world_init.

(** ** Dashboard statistics (src/frontend/app/export-leads/page.tsx) *)

(** The [Conversation] interface of the dashboard page. *)
Record fe_conversation := mkFeConversation {
  fc_id : nat;
  fc_lead_id : nat;
  fc_state : string;
  fc_last_contact : option string;
  fc_booking_link_sent : bool;
  fc_booking_completed : bool
}.

Record stats := mkStats {
  totalLeads : nat;
  activeConversations : nat;
  booked : nat;
  optedOut : nat
}.

(** The two responses [fetchDashboardData] reads: [leadsData.total] and
    [conversationsData.conversations] (absent when [None]). *)
Record leads_response := mkLeadsResponse { leads_ok : bool; leads_total : nat }.
Record conversations_response := mkConversationsResponse {
  conversations_ok : bool;
  conversations_field : option (list fe_conversation)
}.

(** [fetchDashboardData]: [None] when the leads request fails (an error is
    thrown and [setStats] is not reached), otherwise the stats it sets. *)
Definition fetchDashboardData (lr : leads_response) (cr : conversations_response) : option stats :=
  if negb (leads_ok lr) then None else
  let statsData := mkStats (leads_total lr) 0 0 0 in
  if conversations_ok cr then
    let conversations := match conversations_field cr with Some cs => cs | None => [] end in
    Some (mkStats (totalLeads statsData)
      (length (filter (fun c => String.eqb (fc_state c) "engaged" || String.eqb (fc_state c) "new")
                      conversations))
      (length (filter (fun c => String.eqb (fc_state c) "booked") conversations))
      (length (filter (fun c => String.eqb (fc_state c) "opted_out") conversations)))
  else Some statsData.

(** ** Lead import dialog (src/unnamed/part_005, [ImportLeadsModal]) *)

Record file := mkFile { file_name : string; file_type : string }.

Record modal_state := mkModal {
  m_file : option file;
  m_uploading : bool;
  m_error : option string;
  m_success : bool
}.

Definition modal_init : modal_state := mkModal None false None false.

(** The POST to [`${API_BASE_URL}/import-leads`] with the file as form data. *)
Record request := mkRequest { req_url : string; req_method : string; req_file : file }.

Definition API_BASE_URL : string := "http://localhost:8000".

(** [handleFileChange]: [files] is [e.target.files]; only the first is read. *)
Definition handleFileChange (st : modal_state) (files : list file) : modal_state :=
  match files with
  | [] => st
  | selectedFile :: _ =>
      if negb (String.eqb (file_type selectedFile) "text/csv")
      then mkModal None (m_uploading st) (Some "Please select a CSV file") (m_success st)
      else mkModal (Some selectedFile) (m_uploading st) None (m_success st)
  end.

(** [handleSubmit] up to the [fetch] call: the state it sets and the request
    it issues. *)
Definition handleSubmit (st : modal_state) : modal_state * option request :=
  match m_file st with
  | None => (mkModal (m_file st) (m_uploading st) (Some "Please select a file to upload")
                     (m_success st), None)
  | Some f =>
      (mkModal (m_file st) true None (m_success st),
       Some (mkRequest (API_BASE_URL ++ "/import-leads") "POST" f))
  end.

(** [x || fallback] for an optional string field of a response body: an
    absent or empty string is falsy. *)
Definition or_default (x : option string) (fallback : string) : string :=
  match x with
  | Some s => if String.eqb s EmptyString then fallback else s
  | None => fallback
  end.

(** The rest of [handleSubmit], once the response and its JSON body are in
    ([detail] is [data.detail]). *)
Definition handleResponse (st : modal_state) (ok : bool) (detail : option string) : modal_state :=
  if ok then mkModal (m_file st) false (m_error st) true
  else mkModal (m_file st) false (Some (or_default detail "Failed to import leads")) (m_success st).

Inductive modal_event :=
| FileChanged (files : list file)
| Submitted
| ResponseArrived (ok : bool) (detail : option string).

Definition modal_step (st : modal_state) (ev : modal_event) : modal_state * option request :=
  match ev with
  | FileChanged fs => (handleFileChange st fs, None)
  | Submitted => handleSubmit st
  | ResponseArrived ok d => (handleResponse st ok d, None)
  end.

(** The dialog driven by a sequence of events: final state and the requests
    issued, in order. *)
Fixpoint run_modal (st : modal_state) (evs : list modal_event) : modal_state * list request :=
  match evs with
  | [] => (st, [])
  | ev :: evs' =>
      let '(st1, r) := modal_step st ev in
      let '(st2, rs) := run_modal st1 evs' in
      (st2, match r with Some q => q :: rs | None => rs end)
  end.

(** ** Frontend helpers shared by the pages *)

(** Template interpolation or [toString()] of an integer-valued number. *)
Definition js_int (z : Z) : string :=
  DecimalString.NilZero.string_of_int (Z.to_int z).

(** The outcome of [await fetch(...)] and [await response.json()]: one of
    them throws (network failure, body that is not JSON), or the response
    has a status and a parsed body. *)
Inductive fetched (A : Type) :=
| Threw (message : string)
| Responded (status : Z) (data : A).
Arguments Threw {A} message.
Arguments Responded {A} status data.

(** [response.ok]. *)
Definition response_ok (status : Z) : bool := ((200 <=? status) && (status <=? 299))%Z.

(** The whole of [fetchDashboardData] with its [try]/[catch]: the leads
    response ([leadsData.total]), then, only if it is [ok], the
    conversations response ([conversationsData.conversations]). Returns the
    statistics set by [setStats] and the error set by [setError], if any. *)
Definition dashboard_load (leadsResponse : fetched nat)
    (conversationsResponse : fetched (option (list fe_conversation))) : option stats * option string :=
  match leadsResponse with
  | Threw m => (None, Some m)
  | Responded status total =>
      if negb (response_ok status) then (None, Some "Failed to fetch leads") else
      match conversationsResponse with
      | Threw m => (None, Some m)
      | Responded cstatus cdata =>
          (fetchDashboardData (mkLeadsResponse true total)
                              (mkConversationsResponse (response_ok cstatus) cdata), None)
      end
  end.

Definition isSome {A : Type} (x : option A) : bool :=
  match x with Some _ => true | None => false end.

(** JSX [{x && ...}] / [x ? ... : ...] on an optional string. *)
Definition truthy (x : option string) : bool :=
  match x with Some s => negb (String.eqb s EmptyString) | None => false end.

(** JavaScript strings, as their sequences of UTF-16 code units; [of_ascii]
    is a string literal or an ASCII-only string such as a printed number. *)
Definition js_string := list Z.

Definition of_ascii (s : string) : js_string :=
  map (fun a => Z.of_nat (nat_of_ascii a)) (list_ascii_of_string s).

(** The requests the pages issue: a GET, or a POST with its form fields
    ([[]] when there is no body). *)
Inductive fe_request :=
| FGet (url : string)
| FPost (url : string) (form : list (string * js_string)).

(** Code units [String.prototype.trim] removes: WhiteSpace (tab, vertical
    tab, form feed, U+FEFF and the space separators of category Zs: U+0020,
    U+00A0, U+1680, U+2000 to U+200A, U+202F, U+205F, U+3000) and
    LineTerminator (line feed, carriage return, U+2028, U+2029). *)
Definition js_whitespace (u : Z) : bool :=
  (((9 <=? u) && (u <=? 13)) || (u =? 32) || (u =? 160) || (u =? 5760) ||
   ((8192 <=? u) && (u <=? 8202)) || (u =? 8232) || (u =? 8233) || (u =? 8239) ||
   (u =? 8287) || (u =? 12288) || (u =? 65279))%Z.

Fixpoint trim_start (s : js_string) : js_string :=
  match s with
  | [] => []
  | u :: s' => if js_whitespace u then trim_start s' else s
  end.

Definition trim_end (s : js_string) : js_string := rev (trim_start (rev s)).

(** [s.trim()]. *)
Definition trim (s : js_string) : js_string := trim_end (trim_start s).

(** [!s] on a string: only the empty string is falsy. *)
Definition js_string_empty (s : js_string) : bool :=
  match s with [] => true | _ :: _ => false end.

(** [getStateColor], identical in [LeadTable], the conversations pages and
    the lead and conversation detail pages. *)
Definition getStateColor (state : string) : string :=
  if String.eqb state "new" then "bg-blue-100 text-blue-800"
  else if String.eqb state "engaged" then "bg-green-100 text-green-800"
  else if String.eqb state "booked" then "bg-purple-100 text-purple-800"
  else if String.eqb state "opted_out" then "bg-red-100 text-red-800"
  else if String.eqb state "unresponsive" then "bg-yellow-100 text-yellow-800"
  else "bg-gray-100 text-gray-800".

Section FormatDate.

(** [new Date(s).toLocaleDateString()] and [new Date(s).toLocaleTimeString()]
    depend on the locale and time zone of the browser: left abstract. *)
Variable toLocaleDateString toLocaleTimeString : string -> string.

(** [formatDate] of [LeadTable], of the conversations list and of the lead
    detail page ([None] is [null] or [undefined]). *)
Definition formatDate (dateString : option string) : string :=
  match dateString with
  | None => "N/A"
  | Some d =>
      if String.eqb d EmptyString then "N/A"
      else toLocaleDateString d ++ " " ++ toLocaleTimeString d
  end.

End FormatDate.

(** ** Lead table (src/frontend/components/LeadTable.tsx) *)

(** The [Lead] interface of the table and of the leads pages; the detail
    page's additional fields are only displayed. *)
Record fe_lead := mkFeLead {
  fl_id : Z;
  fl_name : string;
  fl_phone_number : string;
  fl_email : option string;
  fl_conversation_state : option string;
  fl_last_contact : option string
}.

Inductive view_action :=
| RouterPush (path : string)
| Alert (message : string).

Definition handleViewDetails (leads : list fe_lead) (leadId : Z) : view_action :=
  if existsb (fun lead => Z.eqb (fl_id lead) leadId) leads
  then RouterPush ("/leads/" ++ js_int leadId)
  else Alert ("Lead with ID " ++ js_int leadId ++
              " not found. Please refresh the page to see the latest leads.").

(** The "View Details" button of each row of [leads.map(...)], in order. *)
Definition row_actions (leads : list fe_lead) : list view_action :=
  map (fun lead => handleViewDetails leads (fl_id lead)) leads.

(** ** Leads page with pagination (src/frontend/app/export-leads/page.tsx, [LeadsPage]) *)

Definition leadsPerPage : Z := 20.

(** [Math.ceil(totalLeads / leadsPerPage)], the division exact. *)
Definition totalPages (totalLeads : Z) : Z :=
  Qround.Qceiling (QArith_base.Qdiv (QArith_base.inject_Z totalLeads)
                                    (QArith_base.inject_Z leadsPerPage)).

(** The page number of the [i]-th numbered button. *)
Definition pageNum (totalPages page i : Z) : Z :=
  if (totalPages <=? 5)%Z then (i + 1)%Z
  else if (page <=? 3)%Z then (i + 1)%Z
  else if (totalPages - 2 <=? page)%Z then (totalPages - 4 + i)%Z
  else (page - 2 + i)%Z.

(** [Array.from({ length: Math.min(5, totalPages) }, ...)]. *)
Definition page_buttons (totalPages page : Z) : list Z :=
  map (fun i => pageNum totalPages page (Z.of_nat i))
      (seq 0 (Z.to_nat (Z.min 5 totalPages))).

(** The URL [fetchLeads] requests. *)
Definition fetchLeads_url (filter : string) (page : Z) : string :=
  let url := "http://localhost:8000/leads?skip=" ++ js_int ((page - 1) * leadsPerPage) ++
             "&limit=" ++ js_int leadsPerPage in
  if negb (String.eqb filter "all") then url ++ "&state=" ++ filter else url.

Record leads_page := mkLeadsPage {
  lp_filter : string;
  lp_page : Z;
  lp_totalLeads : Z;
  lp_loading : bool;
  lp_error : option string
}.

(** The state at mount, when the effect has started the first fetch. *)
Definition leads_page_init : leads_page := mkLeadsPage "all" 1 0 true None.

Definition leads_page_mount_request : string := fetchLeads_url "all" 1.

Inductive leads_page_event :=
| LPFilter (filter : string)          (* a filter button: [setFilter(f); setPage(1)] *)
| LPLoaded (total : Z)                (* [fetchLeads] succeeded with [data.total] *)
| LPFailed (message : string)         (* [fetchLeads] threw *)
| LPPrev | LPNext
| LPPage (i : nat).                   (* the [i]-th numbered button *)

(** New [filter] and [page]; the effect on [[filter, page]] runs [fetchLeads]
    when one of them changed. *)
Definition set_filter_page (st : leads_page) (f : string) (p : Z) : leads_page * option string :=
  if String.eqb f (lp_filter st) && Z.eqb p (lp_page st) then (st, None)
  else (mkLeadsPage f p (lp_totalLeads st) true None, Some (fetchLeads_url f p)).

(** The pagination is rendered when the page is neither loading nor in error
    and [totalPages > 1]. *)
Definition pagination_shown (st : leads_page) : bool :=
  negb (lp_loading st) && negb (truthy (lp_error st)) && (1 <? totalPages (lp_totalLeads st))%Z.

Definition leads_page_step (st : leads_page) (ev : leads_page_event) : leads_page * option string :=
  let tp := totalPages (lp_totalLeads st) in
  match ev with
  | LPFilter f => set_filter_page st f 1
  | LPLoaded total => (mkLeadsPage (lp_filter st) (lp_page st) total false (lp_error st), None)
  | LPFailed m => (mkLeadsPage (lp_filter st) (lp_page st) (lp_totalLeads st) false (Some m), None)
  | LPPrev =>
      if pagination_shown st && negb (Z.eqb (lp_page st) 1)
      then set_filter_page st (lp_filter st) (Z.max 1 (lp_page st - 1)) else (st, None)
  | LPNext =>
      if pagination_shown st && negb (Z.eqb (lp_page st) tp)
      then set_filter_page st (lp_filter st) (Z.min tp (lp_page st + 1)) else (st, None)
  | LPPage i =>
      if pagination_shown st && (Z.of_nat i <? Z.min 5 tp)%Z
      then set_filter_page st (lp_filter st) (pageNum tp (lp_page st) (Z.of_nat i))
      else (st, None)
  end.

(** The numbered buttons: [first + i] for [i < min 5 totalPages]. *)
Definition window_first (tp page : Z) : Z :=
  if (tp <=? 5)%Z then 1%Z
  else if (page <=? 3)%Z then 1%Z
  else if (tp - 2 <=? page)%Z then (tp - 4)%Z
  else (page - 2)%Z.

Fixpoint run_leads_page (st : leads_page) (evs : list leads_page_event) : leads_page * list string :=
  match evs with
  | [] => (st, [])
  | ev :: evs' =>
      let '(st1, r) := leads_page_step st ev in
      let '(st2, rs) := run_leads_page st1 evs' in
      (st2, match r with Some u => u :: rs | None => rs end)
  end.

(** ** Lead detail page (src/frontend/app/export-leads/page.tsx, [LeadDetailPage]) *)

Record lead_conversation := mkLeadConversation {
  lc_id : Z;
  lc_lead_id : Z;
  lc_state : string;
  lc_last_contact : option string;
  lc_booking_link_sent : bool;
  lc_booking_completed : bool;
  lc_message_count : Z
}.

Record lead_detail := mkLeadDetail {
  ld_lead : option fe_lead;
  ld_conversations : list lead_conversation;
  ld_loading : bool;
  ld_error : option string
}.

(** [fetchLeadData]: the responses of the lead request ([leadData.leads])
    and of the conversations request ([conversationsData.conversations]),
    the latter only sent once the lead is set. *)
Definition fetchLeadData (st : lead_detail) (leadResponse : fetched (option (list fe_lead)))
    (conversationsResponse : fetched (option (list lead_conversation))) : lead_detail :=
  match leadResponse with
  | Threw m => mkLeadDetail (ld_lead st) (ld_conversations st) false (Some m)
  | Responded status leadData =>
      match response_ok status, leadData with
      | true, Some (first :: _) =>
          match conversationsResponse with
          | Threw m => mkLeadDetail (Some first) (ld_conversations st) false (Some m)
          | Responded cstatus cdata =>
              mkLeadDetail (Some first)
                (if response_ok cstatus
                 then match cdata with Some cs => cs | None => [] end
                 else ld_conversations st)
                false None
          end
      | _, _ => mkLeadDetail (ld_lead st) (ld_conversations st) false
                  (Some "Failed to fetch lead details")
      end
  end.

Inductive lead_detail_view :=
| LDLoading
| LDError (message : string)
| LDShown (lead : fe_lead) (conversations : list lead_conversation)
| LDNotFound.

(** Which branch of the page's JSX is rendered. *)
Definition lead_detail_render (st : lead_detail) : lead_detail_view :=
  if ld_loading st then LDLoading
  else if truthy (ld_error st) then LDError (match ld_error st with Some m => m | None => EmptyString end)
  else match ld_lead st with
       | Some l => LDShown l (ld_conversations st)
       | None => LDNotFound
       end.

(** ** Conversation page (src/frontend/app/conversations/[id]/page.tsx) *)

Record message_view := mkMessageView {
  mv_id : Z;
  mv_content : string;
  mv_is_from_lead : bool;
  mv_sent_at : string;
  mv_delivered : bool
}.

(** [ConversationDetail]; [cd_conversation_id] is [None] when the body has
    no [conversation_id]. *)
Record conversation_detail := mkConversationDetail {
  cd_conversation_id : option Z;
  cd_lead_name : string;
  cd_state : string;
  cd_messages : list message_view
}.

Record conv_page := mkConvPage {
  cp_id : string;                      (* [params.id] *)
  cp_conversation : option conversation_detail;
  cp_loading : bool;
  cp_error : option string;
  cp_newMessage : js_string;
  cp_sending : bool
}.

Definition conversation_messages_url (id : string) : string :=
  "http://localhost:8000/conversations/" ++ id ++ "/messages".

(** [fetchConversation], once its response is in ([None] is a [null] body). *)
Definition fetchConversation (st : conv_page) (resp : fetched (option conversation_detail)) : conv_page :=
  let fail m := mkConvPage (cp_id st) (cp_conversation st) false (Some m)
                           (cp_newMessage st) (cp_sending st) in
  let not_found := "Conversation with ID " ++ cp_id st ++
                   " not found. Please check the conversations list." in
  match resp with
  | Threw m => fail m
  | Responded status data =>
      if negb (response_ok status) then fail ("Failed to fetch conversation: " ++ js_int status)
      else match data with
           | Some d =>
               match cd_conversation_id d with
               | Some i =>
                   if Z.eqb i 0 then fail not_found
                   else mkConvPage (cp_id st) (Some d) false None (cp_newMessage st) (cp_sending st)
               | None => fail not_found
               end
           | None => fail not_found
           end
  end.

(** [handleSendMessage] with the responses of the lookup request (the
    [lead_id]s of [conversationsData.conversations]) and of the send request
    (its [detail], read only on failure); returns the state once it has
    settled and the requests issued. On success it calls [fetchConversation],
    which sets [loading] and clears [error] before its request. *)
Definition handleSendMessage (st : conv_page) (lookup : fetched (option (list Z)))
    (send : fetched (option string)) : conv_page * list fe_request :=
  if js_string_empty (trim (cp_newMessage st)) || negb (isSome (cp_conversation st))
  then (st, [])
  else
    let q1 := FGet ("http://localhost:8000/conversations?conversation_id=" ++ cp_id st) in
    let fail m := mkConvPage (cp_id st) (cp_conversation st) (cp_loading st) (Some m)
                             (cp_newMessage st) false in
    match lookup with
    | Threw m => (fail m, [q1])
    | Responded status data =>
        if negb (response_ok status) then (fail ("API error: " ++ js_int status), [q1])
        else match data with
             | Some (leadId :: _) =>
                 let q2 := FPost "http://localhost:8000/send-message"
                             [("lead_id", of_ascii (js_int leadId)); ("message", cp_newMessage st)] in
                 match send with
                 | Threw m => (fail m, [q1; q2])
                 | Responded s2 detail =>
                     if negb (response_ok s2)
                     then (fail (or_default detail "Failed to send message"), [q1; q2])
                     else (mkConvPage (cp_id st) (cp_conversation st) true None [] false,
                           [q1; q2; FGet (conversation_messages_url (cp_id st))])
                 end
             | _ => (fail ("Conversation with ID " ++ cp_id st ++
                           " not found. Please check the conversations list for available conversations."),
                     [q1])
             end
    end.

(** The send form is rendered when the conversation is shown (not loading,
    no error) and its state is neither ["opted_out"] nor ["booked"]. *)
Definition send_form_shown (st : conv_page) : bool :=
  negb (cp_loading st) && negb (truthy (cp_error st)) &&
  match cp_conversation st with
  | Some c => negb (String.eqb (cd_state c) "opted_out") && negb (String.eqb (cd_state c) "booked")
  | None => false
  end.

Inductive conv_page_event :=
| CPTyped (text : js_string)
| CPSubmit (lookup : fetched (option (list Z))) (send : fetched (option string))
| CPFetched (resp : fetched (option conversation_detail)).

(** The page as the user can drive it: the input is disabled while sending,
    the submit button while sending or with a blank message (so the form
    cannot be submitted, not even with Enter), and a fetch response only
    arrives while loading. *)
Definition conv_page_step (st : conv_page) (ev : conv_page_event) : conv_page * list fe_request :=
  match ev with
  | CPTyped s =>
      if send_form_shown st && negb (cp_sending st)
      then (mkConvPage (cp_id st) (cp_conversation st) (cp_loading st) (cp_error st) s (cp_sending st), [])
      else (st, [])
  | CPSubmit l s =>
      if send_form_shown st && negb (cp_sending st) &&
         negb (js_string_empty (trim (cp_newMessage st)))
      then handleSendMessage st l s else (st, [])
  | CPFetched r => if cp_loading st then (fetchConversation st r, []) else (st, [])
  end.

Fixpoint run_conv_page (st : conv_page) (evs : list conv_page_event) : conv_page * list fe_request :=
  match evs with
  | [] => (st, [])
  | ev :: evs' =>
      let '(st1, rs1) := conv_page_step st ev in
      let '(st2, rs2) := run_conv_page st1 evs' in
      (st2, (rs1 ++ rs2)%list)
  end.

(** ** Export page (src/frontend/app/export-leads/page.tsx, [ExportLeadsPage]) *)

Record export_page := mkExportPage {
  ep_loading : bool;
  ep_error : option string;
  ep_exportUrl : option string
}.

Record export_body := mkExportBody { eb_detail : option string; eb_file_path : option string }.

(** [handleExport], once the response is in: the request and the state. *)
Definition handleExport (st : export_page) (resp : fetched export_body) : export_page * fe_request :=
  let req := FPost (API_BASE_URL ++ "/export-leads") [] in
  match resp with
  | Threw m => (mkExportPage false (Some m) None, req)
  | Responded status data =>
      if response_ok status then (mkExportPage false None (eb_file_path data), req)
      else (mkExportPage false (Some (or_default (eb_detail data) "Failed to export leads")) None, req)
  end.

(** ** Import dialog as the user can drive it (src/unnamed/part_005) *)

(** The file input is disabled while uploading, the submit button while
    uploading or with no file (so the form cannot be submitted, not even
    with Enter), the form is replaced by the success banner once an import
    succeeded, and a response only arrives for the request in flight. *)
Definition modal_ui_step (st : modal_state) (ev : modal_event) : modal_state * option request :=
  match ev with
  | FileChanged _ => if m_success st || m_uploading st then (st, None) else modal_step st ev
  | Submitted =>
      if m_success st || m_uploading st || negb (isSome (m_file st)) then (st, None)
      else modal_step st ev
  | ResponseArrived _ _ => if m_uploading st then modal_step st ev else (st, None)
  end.

Fixpoint run_modal_ui (st : modal_state) (evs : list modal_event) : modal_state * list request :=
  match evs with
  | [] => (st, [])
  | ev :: evs' =>
      let '(st1, r) := modal_ui_step st ev in
      let '(st2, rs) := run_modal_ui st1 evs' in
      (st2, match r with Some q => q :: rs | None => rs end)
  end.

(** ** Concrete configuration and stores used to run the definitions *)

(** A generation capability that is down, a text-understanding capability
    that is down, and a transport that accepts the third attempt of a send. *)
Definition demo_env : env :=
  mkEnv (fun _ _ _ => None) (fun _ _ => None) (fun _ _ k => Nat.eqb k 2)
        160 3 30%Z 60%Z 86400%Z 20.


Definition demo_lead : lead := mkLead 1 "+15550100" "Ann".

Definition demo_conv (st : conv_state) : conversation :=
  mkConv 0 1 st (Some 0%Z) false false true 0.

Definition demo_store (st : conv_state) : sys :=
  mkSys [demo_lead] [demo_conv st] [] [] [] [] [] [].

Definition demo_payload (body_text : string) : payload :=
  mkPayload "+15550100" "+15559999" body_text "SM0001".

(** A loaded, open conversation with a message typed in. *)
Definition demo_conv_page : conv_page :=
  mkConvPage "5" (Some (mkConversationDetail (Some 5%Z) "Ann" "engaged" [])) false None
             (of_ascii "hello") false.

(** Number of persisted Messages carrying a transport identifier. *)
Definition count_tid (t : string) (ms : list message) : nat :=
  length (filter (fun m => match transport_id m with
                           | Some t' => String.eqb t' t
                           | None => false
                           end) ms).

(** * Invariants *)

(** A state change the state machine can produce: none, or an accepted edge. *)
Definition allowed (s s' : conv_state) : Prop :=
  s' = s \/ exists ev eff, transition s ev = Accepted s' eff.

(** How the list of Conversations evolves: a Conversation is replaced by one
    of the same Lead along an allowed state change, or a new one is appended
    for a Lead that has none. *)
Inductive conv_change : list conversation -> list conversation -> Prop :=
| cc_refl cs : conv_change cs cs
| cc_set cs l c c' :
    find_conv l cs = Some c -> conv_lead c' = l -> allowed (state c) (state c') ->
    conv_change cs (set_conv l c' cs)
| cc_create cs c :
    find_conv (conv_lead c) cs = None -> state c = New -> conv_change cs (cs ++ [c])
| cc_trans cs1 cs2 cs3 : conv_change cs1 cs2 -> conv_change cs2 cs3 -> conv_change cs1 cs3.

Definition active_count (l : nat) (cs : list conversation) : nat :=
  length (filter (fun c => (conv_lead c =? l) && negb (is_terminal (state c))) cs).

Definition one_active_per_lead (cs : list conversation) : Prop :=
  forall l, active_count l cs <= 1.

(** Leads are never written by the core; Conversations evolve along
    [conv_change]. *)
Definition evolves (s s' : sys) : Prop :=
  leads s' = leads s /\ conv_change (convs s) (convs s').

Definition world_ok (w : world) : Prop :=
  NoDup (map fst (w_inflight w)) /\ forall q, In q (w_inflight w) -> In (fst q) (w_held w).

(** * Proofs *)

(** ** Conversations of a Lead *)

Lemma find_conv_lead l cs c : find_conv l cs = Some c -> conv_lead c = l.
Proof.
  induction cs as [|x cs IH]; simpl; [discriminate|].
  destruct (conv_lead x =? l) eqn:E; [intros [= <-]; apply Nat.eqb_eq; exact E | exact IH].
Qed.

Lemma find_conv_none l cs : find_conv l cs = None -> forall x, In x cs -> conv_lead x <> l.
Proof.
  induction cs as [|y cs IH]; simpl; [tauto|].
  destruct (conv_lead y =? l) eqn:E; [discriminate|].
  intros H x [<-|Hx]; [apply Nat.eqb_neq; exact E | exact (IH H x Hx)].
Qed.

Lemma find_conv_set_same l c' cs c :
  find_conv l cs = Some c -> conv_lead c' = l -> find_conv l (set_conv l c' cs) = Some c'.
Proof.
  intros Hf Hl; induction cs as [|x cs IH]; simpl in *; [discriminate|].
  destruct (conv_lead x =? l) eqn:E; simpl.
  - rewrite Hl, Nat.eqb_refl; reflexivity.
  - rewrite E; exact (IH Hf).
Qed.

Lemma find_conv_set_other l l' c' cs :
  conv_lead c' = l -> l' <> l -> find_conv l' (set_conv l c' cs) = find_conv l' cs.
Proof.
  intros Hl Hne; induction cs as [|x cs IH]; simpl; [reflexivity|].
  destruct (conv_lead x =? l) eqn:E; simpl.
  - apply Nat.eqb_eq in E.
    assert ((conv_lead c' =? l') = false) as -> by (apply Nat.eqb_neq; congruence).
    assert ((conv_lead x =? l') = false) as -> by (apply Nat.eqb_neq; congruence).
    reflexivity.
  - destruct (conv_lead x =? l'); [reflexivity | exact IH].
Qed.

Lemma find_conv_app_some l cs c x :
  find_conv l cs = Some x -> find_conv l (cs ++ [c]) = Some x.
Proof.
  induction cs as [|y cs IH]; simpl; [discriminate|].
  destruct (conv_lead y =? l); [tauto | exact IH].
Qed.

Lemma find_conv_app_none l cs c :
  find_conv l cs = None -> find_conv l (cs ++ [c]) = if conv_lead c =? l then Some c else None.
Proof.
  induction cs as [|y cs IH]; simpl; [destruct (conv_lead c =? l); reflexivity|].
  destruct (conv_lead y =? l); [discriminate | exact IH].
Qed.

(** ** Allowed state changes *)

Lemma transition_terminal s ev : is_terminal s = true -> transition s ev = Rejected.
Proof. destruct s; simpl; try discriminate; reflexivity. Qed.

Lemma allowed_terminal s s' : allowed s s' -> is_terminal s = true -> s' = s.
Proof.
  intros [H|(ev & eff & H)] Ht; [exact H|].
  rewrite (transition_terminal _ _ Ht) in H; discriminate.
Qed.

Lemma allowed_active s s' : allowed s s' -> is_terminal s' = false -> is_terminal s = false.
Proof.
  intros H Hs'; destruct (is_terminal s) eqn:Ht; [|reflexivity].
  rewrite (allowed_terminal _ _ H Ht) in Hs'; congruence.
Qed.

Lemma cc_keep cs l c c' :
  find_conv l cs = Some c -> conv_lead c' = l -> state c' = state c ->
  conv_change cs (set_conv l c' cs).
Proof. intros; eapply cc_set; eauto; left; assumption. Qed.

(** A terminal Conversation stays, with its state, through every change. *)
Lemma conv_change_terminal cs cs' :
  conv_change cs cs' -> forall l c, find_conv l cs = Some c -> is_terminal (state c) = true ->
  exists c', find_conv l cs' = Some c' /\ state c' = state c.
Proof.
  induction 1 as [cs|cs l0 c0 c0' Hf Hl Ha|cs c0 Hf Hn|cs1 cs2 cs3 _ IH1 _ IH2];
    intros l c Hc Ht.
  - exists c; auto.
  - destruct (Nat.eq_dec l l0) as [->|Hne].
    + rewrite Hc in Hf; injection Hf as ->.
      exists c0'; split; [eapply find_conv_set_same; eauto|].
      apply allowed_terminal; assumption.
    + exists c; split; [rewrite find_conv_set_other; auto|reflexivity].
  - exists c; split; [apply find_conv_app_some; exact Hc|reflexivity].
  - destruct (IH1 l c Hc Ht) as (c2 & H2 & Hs2).
    destruct (IH2 l c2 H2 (eq_trans (f_equal is_terminal Hs2) Ht)) as (c3 & H3 & Hs3).
    exists c3; split; [exact H3 | congruence].
Qed.

(** ** At most one non-terminal Conversation per Lead *)

Lemma active_count_set l0 c c' cs l :
  find_conv l0 cs = Some c -> conv_lead c' = l0 -> allowed (state c) (state c') ->
  active_count l (set_conv l0 c' cs) <= active_count l cs.
Proof.
  unfold active_count; intros Hf Hl Ha; induction cs as [|x cs IH]; simpl in *; [discriminate|].
  destruct (conv_lead x =? l0) eqn:E; simpl.
  - injection Hf as ->. apply Nat.eqb_eq in E.
    rewrite Hl, E.
    destruct (l0 =? l); simpl; [|lia].
    destruct (is_terminal (state c')) eqn:T'; simpl; [destruct (is_terminal (state c)); simpl; lia|].
    rewrite (allowed_active _ _ Ha T'); simpl; lia.
  - destruct ((conv_lead x =? l) && negb (is_terminal (state x))); simpl; specialize (IH Hf); lia.
Qed.

Lemma active_count_none l cs : find_conv l cs = None -> active_count l cs = 0.
Proof.
  intros H; pose proof (find_conv_none l cs H) as Hn; unfold active_count.
  induction cs as [|x cs IH]; simpl; [reflexivity|].
  assert ((conv_lead x =? l) = false) as -> by (apply Nat.eqb_neq, Hn; left; reflexivity).
  simpl; apply IH.
  - simpl in H; destruct (conv_lead x =? l); [discriminate | exact H].
  - intros y Hy; apply Hn; right; exact Hy.
Qed.

Lemma active_count_app l cs c :
  active_count l (cs ++ [c]) =
  active_count l cs + (if (conv_lead c =? l) && negb (is_terminal (state c)) then 1 else 0).
Proof.
  unfold active_count; rewrite filter_app, length_app; simpl.
  destruct ((conv_lead c =? l) && negb (is_terminal (state c))); reflexivity.
Qed.

Lemma conv_change_one_active cs cs' :
  conv_change cs cs' -> one_active_per_lead cs -> one_active_per_lead cs'.
Proof.
  induction 1 as [cs|cs l0 c0 c0' Hf Hl Ha|cs c0 Hf Hn|cs1 cs2 cs3 _ IH1 _ IH2];
    intros Hinv l.
  - apply Hinv.
  - eapply Nat.le_trans; [eapply active_count_set; eauto | apply Hinv].
  - rewrite active_count_app.
    destruct (conv_lead c0 =? l) eqn:E; simpl; [|rewrite Nat.add_0_r; apply Hinv].
    apply Nat.eqb_eq in E; subst l; rewrite (active_count_none _ _ Hf); simpl.
    destruct (negb (is_terminal (state c0))); lia.
  - apply IH2, IH1, Hinv.
Qed.

(** ** Every operation evolves the store along [conv_change] *)

Lemma evolves_refl s : evolves s s.
Proof. split; [reflexivity | apply cc_refl]. Qed.

Lemma evolves_trans s1 s2 s3 : evolves s1 s2 -> evolves s2 s3 -> evolves s1 s3.
Proof.
  intros [L1 C1] [L2 C2]; split; [congruence | eapply cc_trans; eauto].
Qed.

#[local] Hint Resolve evolves_refl : core.

Lemma apply_effect_lead c eff : conv_lead (apply_effect c eff) = conv_lead c.
Proof. destruct eff; reflexivity. Qed.

Lemma apply_effect_state c eff : state (apply_effect c eff) = state c.
Proof. destruct eff; reflexivity. Qed.

Lemma apply_event_evolves s c ev :
  find_conv (conv_lead c) (convs s) = Some c -> evolves s (snd (apply_event s c ev)).
Proof.
  intros Hc; unfold apply_event.
  destruct (transition (state c) ev) as [st eff|] eqn:T; simpl; [|apply evolves_refl].
  split; [reflexivity|]; simpl.
  rewrite apply_effect_lead; simpl.
  eapply cc_set; [exact Hc | rewrite apply_effect_lead; reflexivity |].
  rewrite apply_effect_state; simpl; right; exists ev, eff; exact T.
Qed.

Lemma update_conv_evolves s c c' :
  find_conv (conv_lead c) (convs s) = Some c -> conv_lead c' = conv_lead c ->
  state c' = state c -> evolves s (update_conv s c').
Proof.
  intros Hc Hl Hs; split; [reflexivity|]; simpl.
  rewrite Hl; eapply cc_keep; eauto.
Qed.

Lemma deliver_evolves e now s l c text :
  find_conv (conv_lead c) (convs s) = Some c -> evolves s (snd (deliver e now s l c text)).
Proof.
  intros Hc; unfold deliver.
  destruct (is_terminal (state c)); [apply evolves_refl|].
  destruct (send_with_retry e (phone_number l) text) as [ok ds].
  destruct ok.
  - set (c1 := with_pending (with_contact c now) false).
    set (s1 := add_sent (add_msg s _) _).
    assert (Hc1 : find_conv (conv_lead c) (convs s1) = Some c) by exact Hc.
    assert (E1 : evolves s1 (update_conv s1 c1))
      by (apply (update_conv_evolves s1 c c1); auto).
    assert (E0 : evolves s s1) by (split; [reflexivity | apply cc_refl]).
    destruct (state c); simpl;
      try (eapply evolves_trans; [exact E0 | exact E1]).
    eapply evolves_trans; [exact E0|]; eapply evolves_trans; [exact E1|].
    apply apply_event_evolves; simpl.
    eapply find_conv_set_same; eauto.
  - apply (update_conv_evolves s c); auto.
Qed.

Lemma get_or_create_evolves s lid :
  evolves s (snd (get_or_create s lid)) /\
  find_conv lid (convs (snd (get_or_create s lid))) = Some (fst (get_or_create s lid)).
Proof.
  unfold get_or_create; destruct (find_conv lid (convs s)) as [c|] eqn:Hc; simpl.
  - split; [apply evolves_refl | exact Hc].
  - split.
    + split; [reflexivity|]; simpl; apply cc_create; [exact Hc | reflexivity].
    + rewrite (find_conv_app_none _ _ _ Hc); simpl; rewrite Nat.eqb_refl; reflexivity.
Qed.

(** Work done under a Lead's slot: acquire, deliver, release. *)
Lemma under_slot_evolves e now s h l c text lid :
  find_conv (conv_lead c) (convs s) = Some c ->
  evolves s (let '(r, s1) := deliver e now (set_held s h) l c text in
             set_held s1 (release lid (held s1))).
Proof.
  intros Hc.
  pose proof (deliver_evolves e now (set_held s h) l c text Hc) as D.
  destruct (deliver e now (set_held s h) l c text) as [r s1]; simpl in *.
  destruct D as [DL DC]; split; simpl; [exact DL | exact DC].
Qed.

Lemma sched_execute_evolves e now s lid : evolves s (snd (sched_execute e now s lid)).
Proof.
  unfold sched_execute.
  destruct (find_lead lid (leads s)) as [l|]; [|apply evolves_refl].
  destruct (find_conv lid (convs s)) as [c|] eqn:Hc; [|apply evolves_refl].
  destruct (is_terminal (state c)); [apply evolves_refl|].
  destruct (try_acquire (held s) lid) as [h|]; [|apply evolves_refl].
  pose proof (under_slot_evolves e now s h l c
    (compose e l (conv_messages (conv_id c) (msgs s)) (trigger_for c)) lid) as U.
  rewrite (find_conv_lead _ _ _ Hc) in U; specialize (U Hc).
  destruct (deliver _ _ _ _ _ _); exact U.
Qed.

Lemma send_manual_evolves e now s lid text : evolves s (snd (send_manual e now s lid text)).
Proof.
  unfold send_manual.
  destruct (find_lead lid (leads s)) as [l|]; [|apply evolves_refl].
  destruct (get_or_create_evolves s lid) as [G Gf].
  destruct (get_or_create s lid) as [c s0]; simpl in *.
  destruct (is_terminal (state c)); [apply evolves_refl|].
  destruct (try_acquire (held s0) lid) as [h|]; [|apply evolves_refl].
  pose proof (under_slot_evolves e now s0 h l c text lid) as U.
  rewrite (find_conv_lead _ _ _ Gf) in U; specialize (U Gf).
  destruct (deliver _ _ _ _ _ _); eapply evolves_trans; [exact G | exact U].
Qed.

Lemma run_selected_evolves e now lids : forall s, evolves s (snd (run_selected e now s lids)).
Proof.
  induction lids as [|lid lids IH]; intros s; simpl; [apply evolves_refl|].
  pose proof (sched_execute_evolves e now s lid) as H1.
  destruct (sched_execute e now s lid) as [r s1]; simpl in H1.
  specialize (IH s1).
  destruct (run_selected e now s1 lids) as [rs s2]; simpl in *.
  eapply evolves_trans; eauto.
Qed.

Lemma handle_inbound_evolves e now s p : evolves s (snd (handle_inbound e now s p)).
Proof.
  unfold handle_inbound.
  destruct (existsb _ (seen_ids s)); [apply evolves_refl|].
  set (s0 := add_seen s (p_message_id p)).
  assert (E0 : evolves s s0) by (split; [reflexivity | apply cc_refl]).
  destruct (find_lead_by_phone (p_from p) (leads s0)) as [l|].
  2:{ simpl; split; [reflexivity | apply cc_refl]. }
  destruct (get_or_create_evolves s0 (lead_id l)) as [G Gf].
  destruct (get_or_create s0 (lead_id l)) as [c s1]; simpl in G, Gf.
  set (s2 := add_msg s1 _).
  assert (E2 : evolves s1 s2) by (split; [reflexivity | apply cc_refl]).
  assert (Hc2 : find_conv (conv_lead c) (convs s2) = Some c)
    by (rewrite (find_conv_lead _ _ _ Gf); exact Gf).
  pose proof (apply_event_evolves s2 c (InboundReceived (fst (classify e (p_body p)
    (conv_messages (conv_id c) (msgs s1))))) Hc2) as A.
  assert (Ebase : forall s3, evolves s2 s3 -> evolves s s3)
    by (intros s3 H3; eapply evolves_trans; [exact E0|];
        eapply evolves_trans; [exact G|]; eapply evolves_trans; [exact E2|exact H3]).
  destruct (apply_event s2 c _) as [[st eff|] s3]; simpl in A;
    [|exact (Ebase _ A)].
  destruct eff; try exact (Ebase _ A).
  destruct (try_acquire (held s3) (lead_id l)) as [h|]; [|exact (Ebase _ A)].
  destruct (find_conv (lead_id l) (convs s3)) as [c3|] eqn:Hc3; [|exact (Ebase _ A)].
  pose proof (under_slot_evolves e now s3 h l c3
    (compose e l (conv_messages (conv_id c3) (msgs s3)) TrigReply) (lead_id l)) as U.
  rewrite (find_conv_lead _ _ _ Hc3) in U; specialize (U Hc3).
  destruct (deliver _ _ _ _ _ _); apply Ebase; eapply evolves_trans; [exact A | exact U].
Qed.

Lemma timeout_check_evolves e now s lid : evolves s (timeout_check e now s lid).
Proof.
  unfold timeout_check.
  destruct (find_conv lid (convs s)) as [c|] eqn:Hc; [|apply evolves_refl].
  destruct (state c), (last_contact c); try apply evolves_refl.
  destruct (_ <=? _)%Z; [|apply evolves_refl].
  apply apply_event_evolves; rewrite (find_conv_lead _ _ _ Hc); exact Hc.
Qed.

Lemma reengagement_exceeded_evolves s lid : evolves s (reengagement_exceeded s lid).
Proof.
  unfold reengagement_exceeded.
  destruct (find_conv lid (convs s)) as [c|] eqn:Hc; [|apply evolves_refl].
  apply apply_event_evolves; rewrite (find_conv_lead _ _ _ Hc); exact Hc.
Qed.

Lemma run_op_evolves e s o : evolves s (run_op e s o).
Proof.
  destruct o; simpl.
  - apply handle_inbound_evolves.
  - apply run_selected_evolves.
  - apply send_manual_evolves.
  - apply timeout_check_evolves.
  - apply reengagement_exceeded_evolves.
Qed.

Lemma run_ops_evolves e os : forall s, evolves s (run_ops e s os).
Proof.
  unfold run_ops; induction os as [|o os IH]; intros s; simpl; [apply evolves_refl|].
  eapply evolves_trans; [apply run_op_evolves | apply IH].
Qed.

(** ** Supporting facts *)

Lemma substring0_length n s : String.length (substring 0 n s) <= n.
Proof.
  revert s; induction n as [|n IH]; intros [|a s]; simpl; try lia.
  specialize (IH s); lia.
Qed.

Lemma substring0_nonempty n s : 0 < n -> s <> EmptyString -> substring 0 n s <> EmptyString.
Proof. destruct n, s; simpl; try lia; congruence. Qed.

Lemma fallback_template_nonempty l t : fallback_template l t <> EmptyString.
Proof. unfold fallback_template; simpl; discriminate. Qed.

Lemma attempt_from_all_fail tr base r :
  (forall k, tr k = false) ->
  forall k, attempt_from tr base k r =
            (false, map (fun j => (base * 2 ^ Z.of_nat j)%Z) (seq k r)).
Proof.
  intros Hf; induction r as [|r IH]; intros k; simpl; rewrite Hf; [reflexivity|].
  rewrite IH; reflexivity.
Qed.






Lemma try_acquire_held h lid : In lid h -> try_acquire h lid = None.
Proof.
  intros H; unfold try_acquire.
  assert (existsb (Nat.eqb lid) h = true) as -> by
    (apply existsb_exists; exists lid; split; [exact H | apply Nat.eqb_refl]).
  reflexivity.
Qed.


Lemma try_acquire_some h lid h' : try_acquire h lid = Some h' -> ~ In lid h /\ h' = lid :: h.
Proof.
  unfold try_acquire; destruct (existsb (Nat.eqb lid) h) eqn:E; [discriminate|].
  intros [= <-]; split; [|reflexivity].
  intros Hin; assert (existsb (Nat.eqb lid) h = true) by
    (apply existsb_exists; exists lid; split; [exact Hin | apply Nat.eqb_refl]); congruence.
Qed.

Lemma release_acquired lid h : ~ In lid h -> release lid (lid :: h) = h.
Proof.
  intros H; unfold release; simpl.
  destruct (Nat.eq_dec lid lid) as [_|]; [|contradiction].
  apply notin_remove; exact H.
Qed.

(** ** C2: the state machine follows the table *)

(** C2. For every state and event, [transition] accepts exactly the rows of
    the table of §4.1, with their next state and side effect; every pair
    outside the table is rejected, and a rejected event leaves the store,
    hence the Conversation's state, unchanged. *)
Theorem transition_follows_table (s : conv_state) (ev : event) :
  (forall s' eff, transition s ev = Accepted s' eff <-> table_row s ev s' eff) /\
  ((forall s' eff, ~ table_row s ev s' eff) -> transition s ev = Rejected) /\
  (forall sy c, state c = s -> transition s ev = Rejected -> apply_event sy c ev = (Rejected, sy)).
Proof.
  assert (Hiff : forall s' eff, transition s ev = Accepted s' eff <-> table_row s ev s' eff).
  { intros s' eff; split.
    - destruct s, ev as [|[]| | |]; simpl; intros H; try discriminate;
        injection H as <- <-; constructor; try reflexivity; discriminate.
    - intros H; inversion H; subst; try reflexivity;
        match goal with
        | Ht : is_terminal ?x = false |- _ => destruct x; simpl in *; congruence
        | Hi : ?i <> IOptOut |- _ => destruct i; simpl; congruence
        end. }
  split; [exact Hiff|]; split.
  - intros Hn; destruct (transition s ev) as [s' eff|] eqn:T; [|reflexivity].
    exfalso; apply (Hn s' eff), Hiff; reflexivity.
  - intros sy c <- Hr; unfold apply_event; rewrite Hr; reflexivity.
Qed.

(** ** C5: the Composer always yields a bounded, non-empty body *)

(** C5. With a positive maximum length, for every Lead, history and trigger
    the composed body is non-empty and at most [max_len] long; when the
    generation capability fails or returns empty content it is the templated
    fallback message. *)
Theorem compose_nonempty_bounded (e : env) (l : lead) (hist : list message) (t : trigger) :
  0 < max_len e ->
  compose e l hist t <> EmptyString /\
  String.length (compose e l hist t) <= max_len e /\
  (generate e l hist t = None \/ generate e l hist t = Some EmptyString ->
   compose e l hist t = fallback_message e l t).
Proof.
  intros Hpos.
  assert (Hfb : fallback_message e l t <> EmptyString /\
                String.length (fallback_message e l t) <= max_len e).
  { split; [apply substring0_nonempty; [exact Hpos | apply fallback_template_nonempty]
           | apply substring0_length]. }
  unfold compose; destruct (generate e l hist t) as [text|] eqn:G.
  - destruct (String.eqb text EmptyString) eqn:Et.
    + split; [apply Hfb|]; split; [apply Hfb|]; reflexivity.
    + assert (text <> EmptyString) by (intros ->; discriminate).
      split; [apply substring0_nonempty; assumption|]; split; [apply substring0_length|].
      intros [G1|G1]; [discriminate|]; injection G1 as ->; discriminate.
  - split; [apply Hfb|]; split; [apply Hfb|]; reflexivity.
Qed.

Lemma compose_nonempty_bounded_witness :
  0 < max_len demo_env /\
  compose demo_env demo_lead [] TrigReply = fallback_message demo_env demo_lead TrigReply.
Proof.
  split; [simpl; lia|].
  apply (compose_nonempty_bounded demo_env demo_lead [] TrigReply); [simpl; lia|].
  left; reflexivity.
Defined.

(** ** C6: transport failures are retried, then counted *)



(** ** C8: the classifier's deterministic tier comes first *)

(** C8. A body with a stop-word is classified opt-out, and a body with a
    booking phrase and no stop-word booking-confirmed, without the external
    capability (the result is the same whatever capability is configured);
    when the external capability is reached and answers opt-out, the intent
    is opt-out. The opt-out event moves every non-terminal Conversation to
    [opted_out], after which a send already selected by a sweep and a manual
    send are both rejected. *)
Theorem classifier_rules_first (e : env) (b : string) (hist : list message) :
  (is_stop b = true -> classify e b hist = (IOptOut, false)) /\
  (is_stop b = false -> is_booking b = true -> classify e b hist = (IBookingConfirmed, false)) /\
  (forall e', classify_rules b <> None -> classify e' b hist = classify e b hist) /\
  (is_booking b = false -> understand e b hist = Some IOptOut ->
   fst (classify e b hist) = IOptOut) /\
  (forall sy c l now text, find_conv (conv_lead c) (convs sy) = Some c ->
   is_terminal (state c) = false ->
   find_lead (conv_lead c) (leads sy) = Some l ->
   let sy' := snd (apply_event sy c (InboundReceived IOptOut)) in
   state c <> OptedOut /\
   find_conv (conv_lead c) (convs sy') = Some (with_pending (with_state c OptedOut) false) /\
   sched_execute e now sy' (conv_lead c) = (RejectedTerminal, sy') /\
   send_manual e now sy' (conv_lead c) text = (RejectedTerminal, sy')).
Proof.
  split; [intros H; unfold classify, classify_rules; rewrite H; reflexivity|].
  split; [intros H1 H2; unfold classify, classify_rules; rewrite H1, H2; reflexivity|].
  split; [intros e' H; unfold classify; destruct (classify_rules b); [reflexivity | congruence]|].
  split.
  - intros Hb Hu; unfold classify, classify_rules.
    destruct (is_stop b); [reflexivity|]; rewrite Hb, Hu; reflexivity.
  - intros sy c l now text Hc Ht Hl; simpl.
    assert (Hopt : transition (state c) (InboundReceived IOptOut) = Accepted OptedOut StopPermanently)
      by (destruct (state c); simpl in *; congruence).
    unfold apply_event; rewrite Hopt; simpl.
    assert (Hf : find_conv (conv_lead c)
                   (set_conv (conv_lead c) (with_pending (with_state c OptedOut) false) (convs sy))
                 = Some (with_pending (with_state c OptedOut) false))
      by (eapply find_conv_set_same; [exact Hc | reflexivity]).
    split; [intros Heq; rewrite Heq in Ht; discriminate|].
    split; [exact Hf|].
    split.
    + unfold sched_execute; simpl; rewrite Hl, Hf; reflexivity.
    + unfold send_manual, get_or_create; simpl; rewrite Hl, Hf; reflexivity.
Qed.

Lemma classifier_rules_first_witness :
  is_stop "Please STOP texting me" = true /\
  classify demo_env "Please STOP texting me" [] = (IOptOut, false).
Proof.
  split; [reflexivity|].
  exact (proj1 (classifier_rules_first demo_env "Please STOP texting me" []) eq_refl).
Defined.

(** ** C1: terminal Conversations reject every later send *)

(** C1. Once a Lead's Conversation is [booked] or [opted_out], after any
    sequence of further operations of the core, a send for that Lead reached
    by a Scheduler sweep and a manual send are both answered with the explicit
    [RejectedTerminal], and the store is returned unchanged: no message is
    queued, persisted or handed to the transport. *)
Theorem terminal_conversation_rejects_sends (e : env) (s : sys) (os : list op) (lid : nat)
    (l : lead) (c : conversation) (now : Z) (text : string) :
  find_lead lid (leads s) = Some l ->
  find_conv lid (convs s) = Some c ->
  is_terminal (state c) = true ->
  sched_execute e now (run_ops e s os) lid = (RejectedTerminal, run_ops e s os) /\
  send_manual e now (run_ops e s os) lid text = (RejectedTerminal, run_ops e s os).
Proof.
  intros Hl Hc Ht.
  destruct (run_ops_evolves e os s) as [HL HC].
  destruct (conv_change_terminal _ _ HC lid c Hc Ht) as (c' & Hc' & Hs).
  split.
  - unfold sched_execute; rewrite HL, Hl, Hc', Hs, Ht; reflexivity.
  - unfold send_manual, get_or_create; rewrite HL, Hl, Hc', Hs, Ht; reflexivity.
Qed.

Lemma terminal_conversation_rejects_sends_witness :
  let s' := run_ops demo_env (demo_store OptedOut)
              [OpInbound 5%Z (demo_payload "hello again"); OpSweep 100%Z] in
  sched_execute demo_env 200%Z s' 1 = (RejectedTerminal, s') /\
  send_manual demo_env 200%Z s' 1 "hi" = (RejectedTerminal, s').
Proof.
  exact (terminal_conversation_rejects_sends demo_env (demo_store OptedOut)
           [OpInbound 5%Z (demo_payload "hello again"); OpSweep 100%Z] 1 demo_lead
           (demo_conv OptedOut) 200%Z "hi" eq_refl eq_refl eq_refl).
Defined.

(** ** C4: at most one non-terminal Conversation per Lead *)

(** C4. If the store holds at most one non-terminal Conversation per Lead,
    it still does after any sequence of operations of the core (inbound
    events, sweeps, manual sends, timeouts, re-engagement limits). *)
Theorem one_active_conversation_per_lead (e : env) (s : sys) (os : list op) :
  one_active_per_lead (convs s) -> one_active_per_lead (convs (run_ops e s os)).
Proof.
  intros H; destruct (run_ops_evolves e os s) as [_ HC].
  exact (conv_change_one_active _ _ HC H).
Qed.

Lemma one_active_conversation_per_lead_witness :
  one_active_per_lead (convs (run_ops demo_env (mkSys [demo_lead] [] [] [] [] [] [] [])
    [OpManual 0%Z 1 "hello"; OpInbound 10%Z (demo_payload "STOP");
     OpManual 20%Z 1 "hello again"])).
Proof.
  apply one_active_conversation_per_lead.
  intros l; unfold active_count; simpl; lia.
Defined.

(** ** Bookkeeping of the inbound pipeline *)

Lemma count_tid_app t ms m :
  count_tid t (ms ++ [m]) =
  count_tid t ms + match transport_id m with Some t' => if String.eqb t' t then 1 else 0
                                          | None => 0 end.
Proof.
  unfold count_tid; rewrite filter_app, length_app; simpl.
  destruct (transport_id m) as [t'|]; [destruct (String.eqb t' t)|]; reflexivity.
Qed.

Lemma apply_event_books s c ev :
  seen_ids (snd (apply_event s c ev)) = seen_ids s /\
  msgs (snd (apply_event s c ev)) = msgs s /\
  sent_log (snd (apply_event s c ev)) = sent_log s /\
  held (snd (apply_event s c ev)) = held s /\
  length (trans_log (snd (apply_event s c ev))) <= S (length (trans_log s)).
Proof.
  unfold apply_event; destruct (transition (state c) ev); simpl; [|repeat split; lia].
  rewrite length_app; simpl; repeat split; lia.
Qed.

Lemma deliver_books e now s l c text :
  seen_ids (snd (deliver e now s l c text)) = seen_ids s /\
  (forall t, count_tid t (msgs (snd (deliver e now s l c text))) = count_tid t (msgs s)) /\
  (state c <> New -> trans_log (snd (deliver e now s l c text)) = trans_log s).
Proof.
  unfold deliver; destruct (is_terminal (state c)); [repeat split; auto|].
  destruct (send_with_retry e (phone_number l) text) as [ok ds].
  destruct ok; [|repeat split; auto].
  destruct (state c) eqn:Hs;
    try (simpl; split; [reflexivity | split;
           [intros t; rewrite count_tid_app; simpl; lia | reflexivity]]).
  cbn [fst snd].
  match goal with |- context [snd (apply_event ?a ?b ?x)] =>
    destruct (apply_event_books a b x) as (A1 & A2 & _) end.
  split; [rewrite A1; reflexivity|].
  split; [intros t; rewrite A2; simpl; rewrite count_tid_app; simpl; lia|].
  congruence.
Qed.

Lemma transition_schedule_reply s ev st : transition s ev = Accepted st ScheduleReply -> st = Engaged.
Proof. destruct s, ev as [|[]| | |]; simpl; congruence. Qed.

(** A fresh identifier is recorded; its Message is persisted once when the
    sender is a known Lead; at most one transition is logged. *)
Lemma handle_inbound_fresh e now s p :
  existsb (String.eqb (p_message_id p)) (seen_ids s) = false ->
  In (p_message_id p) (seen_ids (snd (handle_inbound e now s p))) /\
  count_tid (p_message_id p) (msgs (snd (handle_inbound e now s p))) =
    count_tid (p_message_id p) (msgs s) +
    (if find_lead_by_phone (p_from p) (leads s) then 1 else 0) /\
  length (trans_log (snd (handle_inbound e now s p))) <= S (length (trans_log s)).
Proof.
  intros Hfresh; unfold handle_inbound; rewrite Hfresh.
  set (t := p_message_id p).
  change (leads (add_seen s t)) with (leads s).
  destruct (find_lead_by_phone (p_from p) (leads s)) as [l|].
  2:{ simpl; split; [left; reflexivity|]; split; [lia | lia]. }
  destruct (get_or_create_evolves (add_seen s t) (lead_id l)) as [_ Gf].
  assert (G : forall s', s' = snd (get_or_create (add_seen s t) (lead_id l)) ->
              seen_ids s' = t :: seen_ids s /\ msgs s' = msgs s /\ trans_log s' = trans_log s)
    by (intros s' ->; unfold get_or_create;
        destruct (find_conv (lead_id l) (convs (add_seen s t))); simpl; auto).
  destruct (get_or_create (add_seen s t) (lead_id l)) as [c s1]; simpl in Gf.
  destruct (G s1 eq_refl) as (G1 & G2 & G3); clear G.
  set (m := mkMessage (conv_id c) DirInbound (p_body p) now true (Some t)).
  set (s2 := add_msg s1 m).
  assert (C2 : count_tid t (msgs s2) = count_tid t (msgs s) + 1)
    by (unfold s2, m; simpl; rewrite count_tid_app, G2; simpl; rewrite String.eqb_refl; reflexivity).
  set (ev := InboundReceived (fst (classify e (p_body p) (conv_messages (conv_id c) (msgs s1))))).
  destruct (apply_event_books s2 c ev) as (A1 & A2 & _ & _ & A5).
  assert (Hs3 : forall s3, s3 = snd (apply_event s2 c ev) ->
     In t (seen_ids s3) /\ count_tid t (msgs s3) = count_tid t (msgs s) + 1 /\
     length (trans_log s3) <= S (length (trans_log s))).
  { intros s3 ->; split; [rewrite A1; simpl; rewrite G1; left; reflexivity|].
    split; [rewrite A2; exact C2|]; rewrite A5; simpl; rewrite G3; lia. }
  assert (Happ : apply_event s2 c ev = (fst (apply_event s2 c ev), snd (apply_event s2 c ev)))
    by (destruct (apply_event s2 c ev); reflexivity).
  unfold ev in Happ, Hs3; unfold ev.
  destruct (apply_event s2 c _) as [[st eff|] s3] eqn:Hae; simpl in Hs3;
    [|exact (Hs3 s3 eq_refl)].
  destruct eff; try exact (Hs3 s3 eq_refl).
  destruct (try_acquire (held s3) (lead_id l)) as [h|]; [|exact (Hs3 s3 eq_refl)].
  destruct (find_conv (lead_id l) (convs s3)) as [c3|] eqn:Hc3; [|exact (Hs3 s3 eq_refl)].
  (* the Conversation found again is the one just written, now [engaged] *)
  assert (Hst3 : state c3 <> New).
  { unfold apply_event in Hae.
    destruct (transition (state c) _) as [st' eff'|] eqn:T; [|discriminate].
    injection Hae as E1 E2 E3; subst.
    pose proof (transition_schedule_reply _ _ _ T) as ->.
    simpl in Hc3.
    assert (Hcl : conv_lead c = lead_id l) by exact (find_conv_lead _ _ _ Gf).
    rewrite Hcl in Hc3.
    erewrite find_conv_set_same in Hc3; [| exact Gf | simpl; exact Hcl].
    injection Hc3 as <-; simpl; discriminate. }
  destruct (Hs3 s3 eq_refl) as (B1 & B2 & B3).
  destruct (deliver_books e now (set_held s3 h) l c3
    (compose e l (conv_messages (conv_id c3) (msgs s3)) TrigReply)) as (D1 & D2 & D3).
  destruct (deliver e now (set_held s3 h) l c3 _) as [r s4]; simpl in *.
  split; [rewrite D1; exact B1|]; split; [rewrite D2; exact B2|].
  rewrite (D3 Hst3); exact B3.
Qed.

Lemma handle_inbound_dup e now s p :
  existsb (String.eqb (p_message_id p)) (seen_ids s) = true ->
  handle_inbound e now s p = (DuplicateIgnored, s).
Proof. intros H; unfold handle_inbound; rewrite H; reflexivity. Qed.

(** ** C3: replaying an inbound webhook *)

(** C3 (as stated, refuted). A payload from a phone number that matches no
    Lead, delivered twice, leaves no persisted Message with its identifier
    (only an audit record), not exactly one. *)
Lemma inbound_replay_unknown_contact_counterexample :
  count_tid "SM0001"
    (msgs (snd (handle_inbound demo_env 1%Z
       (snd (handle_inbound demo_env 0%Z (mkSys [] [] [] [] [] [] [] []) (demo_payload "hi")))
       (demo_payload "hi")))) <> 1.
Proof. vm_compute; discriminate. Qed.

(** C3 (amended). For a payload whose identifier has not been recorded,
    the first delivery is acknowledged; delivering it again is acknowledged
    as processed and returns the store unchanged (no side effect); after both
    deliveries the store holds exactly one Message with that identifier when
    the sender is a known Lead and none when the contact is unknown, and at
    most one state transition has been made. *)
Theorem inbound_replay_idempotent (e : env) (now now' : Z) (s : sys) (p : payload) :
  existsb (String.eqb (p_message_id p)) (seen_ids s) = false ->
  count_tid (p_message_id p) (msgs s) = 0 ->
  acknowledged_ok (fst (handle_inbound e now s p)) = true /\
  handle_inbound e now' (snd (handle_inbound e now s p)) p =
    (DuplicateIgnored, snd (handle_inbound e now s p)) /\
  acknowledged_ok DuplicateIgnored = true /\
  count_tid (p_message_id p) (msgs (snd (handle_inbound e now s p))) =
    (if find_lead_by_phone (p_from p) (leads s) then 1 else 0) /\
  length (trans_log (snd (handle_inbound e now s p))) <= S (length (trans_log s)).
Proof.
  intros Hfresh H0.
  destruct (handle_inbound_fresh e now s p Hfresh) as (F1 & F2 & F3).
  split; [destruct (fst (handle_inbound e now s p)); reflexivity|].
  split.
  { apply handle_inbound_dup, existsb_exists.
    exists (p_message_id p); split; [exact F1 | apply String.eqb_refl]. }
  split; [reflexivity|].
  split; [rewrite F2, H0; reflexivity | exact F3].
Qed.

Lemma inbound_replay_idempotent_witness :
  handle_inbound demo_env 6%Z (snd (handle_inbound demo_env 5%Z (demo_store Engaged)
                                      (demo_payload "what time works?")))
                 (demo_payload "what time works?") =
  (DuplicateIgnored, snd (handle_inbound demo_env 5%Z (demo_store Engaged)
                            (demo_payload "what time works?"))).
Proof.
  exact (proj1 (proj2 (inbound_replay_idempotent demo_env 5%Z 6%Z (demo_store Engaged)
                         (demo_payload "what time works?") eq_refl eq_refl))).
Defined.

(** ** Slot discipline *)

Lemma NoDup_map_fst_filter (g : nat * actor -> bool) (l : list (nat * actor)) :
  NoDup (map fst l) -> NoDup (map fst (filter g l)).
Proof.
  induction l as [|q l IH]; simpl; intros H; [constructor|].
  inversion H as [|? ? Hn Hd]; subst.
  destruct (g q); simpl; [|exact (IH Hd)].
  constructor; [|exact (IH Hd)].
  intros Hin; apply Hn; apply in_map_iff in Hin as (q' & Hq' & Hin).
  apply filter_In in Hin as [Hin _]; apply in_map_iff; exists q'; auto.
Qed.

Lemma world_step_ok w x : world_ok w -> world_ok (world_step w x).
Proof.
  intros [Hnd Hsub].
  assert (Hbegin : forall lid a h, try_acquire (w_held w) lid = Some h ->
                   world_ok (begin_send w lid a h)).
  { intros lid a h Ha; apply try_acquire_some in Ha as [Hn ->]; split; simpl.
    - constructor; [|exact Hnd].
      intros Hin; apply in_map_iff in Hin as (q & Hq & Hin).
      apply Hn; rewrite <- Hq; apply Hsub, Hin.
    - intros q [<-|Hq]; [left; reflexivity | right; apply Hsub, Hq]. }
  destruct x as [lid|lid|lid|lid]; simpl.
  - destruct (try_acquire (w_held w) lid) eqn:Ha; [apply Hbegin; exact Ha | split; assumption].
  - destruct (try_acquire (w_held w) lid) eqn:Ha; [apply Hbegin; exact Ha | split; assumption].
  - destruct (try_acquire (w_held w) lid) eqn:Ha; [apply Hbegin; exact Ha | split; assumption].
  - destruct (existsb _ _); [|split; assumption].
    split; simpl; [apply NoDup_map_fst_filter, Hnd|].
    intros q Hq; apply filter_In in Hq as [Hq Hne].
    apply in_in_remove; [|apply Hsub, Hq].
    intros E; rewrite E, Nat.eqb_refl in Hne; discriminate.
Qed.

Lemma run_world_ok xs : world_ok (run_world xs).
Proof.
  unfold run_world.
  assert (H : forall w, world_ok w -> world_ok (fold_left world_step xs w)).
  { induction xs as [|x xs IH]; intros w Hw; simpl; [exact Hw|].
    apply IH, world_step_ok, Hw. }
  apply H; split; simpl; [constructor | tauto].
Qed.

Lemma world_step_begins_by_acquiring w x lid a :
  In (lid, a) (w_inflight (world_step w x)) -> ~ In (lid, a) (w_inflight w) ->
  ~ In lid (w_held w) /\ In lid (w_held (world_step w x)).
Proof.
  assert (Hb : forall lid0 a0 h, try_acquire (w_held w) lid0 = Some h ->
            In (lid, a) (w_inflight (begin_send w lid0 a0 h)) -> ~ In (lid, a) (w_inflight w) ->
            ~ In lid (w_held w) /\ In lid (w_held (begin_send w lid0 a0 h))).
  { intros lid0 a0 h Ha Hin Hnot; apply try_acquire_some in Ha as [Hn ->]; simpl in *.
    destruct Hin as [E|Hin]; [|contradiction].
    injection E as <- <-; split; [exact Hn | left; reflexivity]. }
  destruct x as [lid0|lid0|lid0|lid0]; simpl.
  - destruct (try_acquire (w_held w) lid0) eqn:Ha; [apply Hb; exact Ha | contradiction].
  - destruct (try_acquire (w_held w) lid0) eqn:Ha; [apply Hb; exact Ha | simpl; contradiction].
  - destruct (try_acquire (w_held w) lid0) eqn:Ha; [apply Hb; exact Ha | contradiction].
  - destruct (existsb _ _); simpl; [|contradiction].
    intros Hin Hnot; apply filter_In in Hin as [Hin _]; contradiction.
Qed.

(** The Inbound Pipeline, when the slot of the Lead is held, leaves the
    Conversation marked for a reply and sends nothing. *)
Lemma handle_inbound_busy e now s p l c i b st :
  existsb (String.eqb (p_message_id p)) (seen_ids s) = false ->
  find_lead_by_phone (p_from p) (leads s) = Some l ->
  find_conv (lead_id l) (convs s) = Some c ->
  classify e (p_body p) (conv_messages (conv_id c) (msgs s)) = (i, b) ->
  transition (state c) (InboundReceived i) = Accepted st ScheduleReply ->
  In (lead_id l) (held s) ->
  sent_log (snd (handle_inbound e now s p)) = sent_log s /\
  held (snd (handle_inbound e now s p)) = held s /\
  exists c', find_conv (lead_id l) (convs (snd (handle_inbound e now s p))) = Some c' /\
             reply_pending c' = true /\ state c' = Engaged.
Proof.
  intros Hseen Hl Hc Hcl Ht Hheld.
  unfold handle_inbound; rewrite Hseen.
  change (leads (add_seen s (p_message_id p))) with (leads s); rewrite Hl.
  unfold get_or_create.
  change (convs (add_seen s (p_message_id p))) with (convs s); rewrite Hc.
  change (msgs (add_seen s (p_message_id p))) with (msgs s); rewrite Hcl.
  unfold apply_event; cbn [fst snd]; rewrite Ht.
  rewrite (try_acquire_held (held s)) by exact Hheld.
  cbn [fst snd sent_log held add_trans update_conv set_convs add_msg add_seen convs].
  split; [reflexivity|]; split; [reflexivity|].
  eexists; split.
  - unfold apply_effect, with_pending, with_state; cbn [conv_lead].
    rewrite (find_conv_lead _ _ _ Hc).
    eapply find_conv_set_same; [exact Hc | reflexivity].
  - rewrite (transition_schedule_reply _ _ _ Ht); split; reflexivity.
Qed.

(** ** C7: at most one outbound send in flight per Lead *)

(** C7. In every interleaving of Scheduler picks, Inbound-Pipeline replies,
    manual sends and send completions, no two sends are in flight for one
    Lead; a send enters flight only in the step that acquires its Lead's
    free slot. With the slot held, a Scheduler pick and a manual send do
    nothing and an Inbound-Pipeline reply only marks the Lead due. In the
    store model, the Scheduler's send for a held slot answers [SlotBusy] and
    changes nothing, and the Inbound Pipeline, for a transition asking for a
    reply while the slot is held, sends nothing and leaves the Conversation
    [engaged] with its reply pending. *)
Theorem per_lead_slot_discipline (xs : list action) (x : action) (lid : nat) (a : actor) :
  NoDup (map fst (w_inflight (run_world xs))) /\
  (In (lid, a) (w_inflight (world_step (run_world xs) x)) ->
   ~ In (lid, a) (w_inflight (run_world xs)) ->
   ~ In lid (w_held (run_world xs)) /\ In lid (w_held (world_step (run_world xs) x))) /\
  (In lid (w_held (run_world xs)) ->
   world_step (run_world xs) (SchedPick lid) = run_world xs /\
   world_step (run_world xs) (ManualSend lid) = run_world xs /\
   world_step (run_world xs) (InboundReply lid) =
     mkWorld (w_held (run_world xs)) (w_inflight (run_world xs)) (lid :: w_due (run_world xs))) /\
  (forall e now s l c,
   find_lead lid (leads s) = Some l -> find_conv lid (convs s) = Some c ->
   is_terminal (state c) = false -> In lid (held s) ->
   sched_execute e now s lid = (SlotBusy, s)) /\
  (forall e now s p l c i b st,
   lead_id l = lid ->
   existsb (String.eqb (p_message_id p)) (seen_ids s) = false ->
   find_lead_by_phone (p_from p) (leads s) = Some l ->
   find_conv lid (convs s) = Some c ->
   classify e (p_body p) (conv_messages (conv_id c) (msgs s)) = (i, b) ->
   transition (state c) (InboundReceived i) = Accepted st ScheduleReply ->
   In lid (held s) ->
   sent_log (snd (handle_inbound e now s p)) = sent_log s /\
   held (snd (handle_inbound e now s p)) = held s /\
   exists c', find_conv lid (convs (snd (handle_inbound e now s p))) = Some c' /\
              reply_pending c' = true /\ state c' = Engaged).
Proof.
  split; [apply run_world_ok|].
  split; [apply world_step_begins_by_acquiring|].
  split.
  - intros Hh; simpl; rewrite (try_acquire_held _ _ Hh).
    split; [reflexivity|]; split; [reflexivity|].
    destruct (run_world xs); reflexivity.
  - split.
    + intros e now s l c Hl Hc Ht Hh.
      unfold sched_execute; rewrite Hl, Hc, Ht, (try_acquire_held _ _ Hh); reflexivity.
    + intros e now s p l c i b st <-; apply handle_inbound_busy.
Qed.

Lemma per_lead_slot_discipline_witness :
  world_step (run_world [SchedPick 1]) (InboundReply 1) = mkWorld [1] [(1, SchedulerActor)] [1].
Proof.
  exact (proj2 (proj2 (proj1 (proj2 (proj2
    (per_lead_slot_discipline [SchedPick 1] (SendFinished 1) 1 SchedulerActor)))
    (or_introl eq_refl)))).
Defined.

(** ** C9: the dashboard's active count *)

Lemma active_filter_in c :
  (String.eqb (fc_state c) "engaged" || String.eqb (fc_state c) "new") =
  (if in_dec string_dec (fc_state c) ["engaged"; "new"] then true else false).
Proof.
  destruct (in_dec string_dec (fc_state c) ["engaged"; "new"]) as [H|H].
  - destruct H as [<-|[<-|[]]]; reflexivity.
  - apply orb_false_iff; split; apply String.eqb_neq; intros E; apply H; rewrite E; simpl; auto.
Qed.

(** C9. When both requests succeed, the "Active Conversations" statistic
    is the number of fetched Conversations whose state is ["engaged"] or
    ["new"]; inserting a Conversation in state ["unresponsive"] anywhere in
    the fetched list leaves it unchanged. *)
Theorem active_conversations_engaged_or_new (lr : leads_response) (cs cs1 cs2 : list fe_conversation)
    (u : fe_conversation) :
  leads_ok lr = true ->
  (exists st, fetchDashboardData lr (mkConversationsResponse true (Some cs)) = Some st /\
     activeConversations st =
       length (filter (fun c => if in_dec string_dec (fc_state c) ["engaged"; "new"]
                                then true else false) cs)) /\
  (fc_state u = "unresponsive" ->
   option_map activeConversations
     (fetchDashboardData lr (mkConversationsResponse true (Some (cs1 ++ u :: cs2)%list))) =
   option_map activeConversations
     (fetchDashboardData lr (mkConversationsResponse true (Some (cs1 ++ cs2)%list)))).
Proof.
  intros Hok; unfold fetchDashboardData; rewrite Hok; simpl.
  split.
  - eexists; split; [reflexivity|]; simpl.
    f_equal; apply filter_ext; intros c; apply active_filter_in.
  - intros Hu; simpl; f_equal.
    rewrite !filter_app, !length_app; simpl; rewrite Hu; reflexivity.
Qed.

Lemma active_conversations_engaged_or_new_witness :
  option_map activeConversations
    (fetchDashboardData (mkLeadsResponse true 3)
       (mkConversationsResponse true
          (Some [mkFeConversation 1 1 "engaged" None false false;
                 mkFeConversation 2 2 "unresponsive" None false false;
                 mkFeConversation 3 3 "new" None false false]))) = Some 2.
Proof.
  destruct (proj2 (active_conversations_engaged_or_new (mkLeadsResponse true 3) []
             [mkFeConversation 1 1 "engaged" None false false]
             [mkFeConversation 3 3 "new" None false false]
             (mkFeConversation 2 2 "unresponsive" None false false) eq_refl) eq_refl) .
  reflexivity.
Defined.

(** ** C10: the import dialog only submits CSV files *)

Lemma modal_step_keeps_csv st ev :
  (forall f, m_file st = Some f -> file_type f = "text/csv") ->
  (forall f, m_file (fst (modal_step st ev)) = Some f -> file_type f = "text/csv") /\
  (forall r, snd (modal_step st ev) = Some r -> file_type (req_file r) = "text/csv" /\
     req_method r = "POST" /\ req_url r = API_BASE_URL ++ "/import-leads").
Proof.
  intros Hst; destruct ev as [fs| |ok d]; simpl.
  - split; [|discriminate].
    destruct fs as [|g fs]; [exact Hst|]; simpl.
    destruct (String.eqb (file_type g) "text/csv") eqn:E; simpl; [|discriminate].
    intros f [= <-]; apply String.eqb_eq; exact E.
  - unfold handleSubmit; destruct (m_file st) as [g|] eqn:Hf; simpl.
    + split; [intros f [= <-]; apply Hst; reflexivity|].
      intros r [= <-]; simpl; split; [apply Hst; reflexivity | split; reflexivity].
    + split; discriminate.
  - split; [|discriminate].
    unfold handleResponse; destruct ok; exact Hst.
Qed.

Lemma run_modal_csv evs : forall st,
  (forall f, m_file st = Some f -> file_type f = "text/csv") ->
  forall r, In r (snd (run_modal st evs)) ->
    file_type (req_file r) = "text/csv" /\ req_method r = "POST" /\
    req_url r = API_BASE_URL ++ "/import-leads".
Proof.
  induction evs as [|ev evs IH]; intros st Hst r; simpl; [tauto|].
  destruct (modal_step_keeps_csv st ev Hst) as [K1 K2].
  destruct (modal_step st ev) as [st1 q]; simpl in *.
  specialize (IH st1 K1).
  destruct (run_modal st1 evs) as [st2 rs]; simpl in *.
  destruct q as [q|]; [|exact (IH r)].
  intros [<-|Hr]; [apply K2; reflexivity | exact (IH r Hr)].
Qed.

(** C10. Whatever the sequence of file selections, submissions and
    responses from the initial dialog, every request issued is the POST to
    [/import-leads] of a file whose type is exactly ["text/csv"]. Selecting a
    file of another type sets the error and clears the selection; submitting
    with no file selected sets the error and issues no request; submitting
    with a file selected issues the request for it. *)
Theorem import_dialog_submits_only_csv (evs : list modal_event) (st : modal_state)
    (f : file) (fs : list file) :
  (forall r, In r (snd (run_modal modal_init evs)) ->
     file_type (req_file r) = "text/csv" /\ req_method r = "POST" /\
     req_url r = API_BASE_URL ++ "/import-leads") /\
  (file_type f <> "text/csv" ->
     m_file (handleFileChange st (f :: fs)) = None /\
     m_error (handleFileChange st (f :: fs)) = Some "Please select a CSV file") /\
  (m_file st = None ->
     snd (handleSubmit st) = None /\
     m_error (fst (handleSubmit st)) = Some "Please select a file to upload") /\
  (forall g, m_file st = Some g ->
     snd (handleSubmit st) = Some (mkRequest (API_BASE_URL ++ "/import-leads") "POST" g)).
Proof.
  split; [apply run_modal_csv; simpl; discriminate|].
  split.
  - intros Hf; simpl.
    destruct (String.eqb (file_type f) "text/csv") eqn:E; [apply String.eqb_eq in E; contradiction|].
    split; reflexivity.
  - unfold handleSubmit; split; [intros ->; split; reflexivity|].
    intros g ->; reflexivity.
Qed.

Lemma import_dialog_submits_only_csv_witness :
  m_file (handleFileChange modal_init [mkFile "leads.xlsx" "application/vnd.ms-excel"]) = None /\
  m_error (handleFileChange modal_init [mkFile "leads.xlsx" "application/vnd.ms-excel"]) =
    Some "Please select a CSV file".
Proof.
  exact (proj1 (proj2 (import_dialog_submits_only_csv [] modal_init
                         (mkFile "leads.xlsx" "application/vnd.ms-excel") []))
           ltac:(discriminate)).
Defined.

(** * Further properties of the frontend *)

(** ** Dashboard statistics *)

Lemma filter_partition4 {A : Type} (p1 p2 p3 p4 : A -> bool) (l : list A) :
  (forall x, (if p1 x then 1 else 0) + (if p2 x then 1 else 0) +
             (if p3 x then 1 else 0) + (if p4 x then 1 else 0) = 1) ->
  length (filter p1 l) + length (filter p2 l) + length (filter p3 l) + length (filter p4 l) =
  length l.
Proof.
  intros H; induction l as [|x l IH]; [reflexivity|]; simpl.
  specialize (H x); destruct (p1 x), (p2 x), (p3 x), (p4 x); simpl in *; lia.
Qed.

Lemma dashboard_filters_partition (cs : list fe_conversation) :
  length (filter (fun c => String.eqb (fc_state c) "engaged" || String.eqb (fc_state c) "new") cs) +
  length (filter (fun c => String.eqb (fc_state c) "booked") cs) +
  length (filter (fun c => String.eqb (fc_state c) "opted_out") cs) +
  length (filter (fun c => negb (existsb (String.eqb (fc_state c))
                                   ["engaged"; "new"; "booked"; "opted_out"])) cs) =
  length cs.
Proof.
  apply filter_partition4; intros c; simpl.
  destruct (String.eqb (fc_state c) "engaged") eqn:E1;
    [apply String.eqb_eq in E1; rewrite E1; reflexivity|].
  destruct (String.eqb (fc_state c) "new") eqn:E2;
    [apply String.eqb_eq in E2; rewrite E2; reflexivity|].
  destruct (String.eqb (fc_state c) "booked") eqn:E3;
    [apply String.eqb_eq in E3; rewrite E3; reflexivity|].
  destruct (String.eqb (fc_state c) "opted_out"); reflexivity.
Qed.

(** X1. The three conversation counters of the dashboard count disjoint sets:
    together with the Conversations in any other state they add up to the
    number of Conversations fetched, and the lead total is [leadsData.total]. *)
Theorem dashboard_counts_partition (lr : leads_response) (cs : list fe_conversation) (st : stats) :
  fetchDashboardData lr (mkConversationsResponse true (Some cs)) = Some st ->
  activeConversations st + booked st + optedOut st +
  length (filter (fun c => negb (existsb (String.eqb (fc_state c))
                                   ["engaged"; "new"; "booked"; "opted_out"])) cs) = length cs /\
  totalLeads st = leads_total lr.
Proof.
  unfold fetchDashboardData; destruct (leads_ok lr); simpl; [|discriminate].
  intros [= <-]; simpl; split; [apply dashboard_filters_partition | reflexivity].
Qed.

Lemma dashboard_counts_partition_witness :
  (let cs := [mkFeConversation 1 1 "engaged" None false false;
              mkFeConversation 2 2 "unresponsive" None false false;
              mkFeConversation 3 3 "booked" None false true] in
   2 + length (filter (fun c => negb (existsb (String.eqb (fc_state c))
                                   ["engaged"; "new"; "booked"; "opted_out"])) cs) = length cs) /\
  totalLeads (mkStats 7 1 1 0) = leads_total (mkLeadsResponse true 7).
Proof.
  exact (dashboard_counts_partition (mkLeadsResponse true 7)
           [mkFeConversation 1 1 "engaged" None false false;
            mkFeConversation 2 2 "unresponsive" None false false;
            mkFeConversation 3 3 "booked" None false true]
           (mkStats 7 1 1 0) eq_refl).
Defined.

(** X2. The dashboard load either sets statistics and no error, or sets an
    error and no statistics. A leads request that throws (network failure,
    body that is not JSON) shows its message; a failed leads response shows
    "Failed to fetch leads"; a conversations request that throws shows its
    message and sets no statistics. When the conversations response fails
    or its body has no [conversations], the statistics are the lead total
    and three zeros; whenever statistics are set their lead total is
    [leadsData.total]. *)
Theorem dashboard_failure_paths :
  (forall lresp cresp, (exists st, dashboard_load lresp cresp = (Some st, None)) \/
                       (exists m, dashboard_load lresp cresp = (None, Some m))) /\
  (forall m cresp, dashboard_load (Threw m) cresp = (None, Some m)) /\
  (forall status total cresp, response_ok status = false ->
     dashboard_load (Responded status total) cresp = (None, Some "Failed to fetch leads")) /\
  (forall status total m, response_ok status = true ->
     dashboard_load (Responded status total) (Threw m) = (None, Some m)) /\
  (forall status total cstatus cdata, response_ok status = true ->
     (response_ok cstatus = false \/ cdata = None) ->
     dashboard_load (Responded status total) (Responded cstatus cdata) =
     (Some (mkStats total 0 0 0), None)) /\
  (forall lresp cresp st e, dashboard_load lresp cresp = (Some st, e) ->
     exists status, lresp = Responded status (totalLeads st) /\ response_ok status = true).
Proof.
  unfold dashboard_load; split; [|split; [|split; [|split; [|split]]]].
  - intros [m|status total] cresp; [right; eauto|].
    destruct (response_ok status); simpl; [|right; eauto].
    destruct cresp as [m|cstatus cdata]; [right; eauto|left].
    unfold fetchDashboardData; simpl; destruct (response_ok cstatus); eauto.
  - reflexivity.
  - intros status total cresp ->; reflexivity.
  - intros status total m ->; reflexivity.
  - intros status total cstatus cdata -> H; simpl; unfold fetchDashboardData; simpl.
    destruct H as [->| ->]; [reflexivity|]; destruct (response_ok cstatus); reflexivity.
  - intros [m|status total] cresp st e; [discriminate|].
    destruct (response_ok status) eqn:Hok; simpl; [|discriminate].
    destruct cresp as [m|cstatus cdata]; [discriminate|].
    unfold fetchDashboardData; simpl; destruct (response_ok cstatus); intros [= <- _];
      exists status; split; reflexivity || exact Hok.
Qed.

(** ** Leads page pagination *)

Lemma totalPages_spec (t : Z) : (t <= leadsPerPage * totalPages t < t + leadsPerPage)%Z.
Proof.
  assert (E : totalPages t = (- (- t / 20))%Z).
  { unfold totalPages, leadsPerPage, Qround.Qceiling, Qround.Qfloor; simpl.
    rewrite Z.mul_1_r; reflexivity. }
  rewrite E; unfold leadsPerPage.
  pose proof (Z.div_mod (- t) 20 ltac:(lia)) as D.
  pose proof (Z.mod_pos_bound (- t) 20 ltac:(lia)) as B.
  lia.
Qed.

(** X3. The number of pages covers the leads exactly: there are no pages for no
    leads, every lead index lies in the slice requested for page
    [index / 20 + 1], which is a page in range, and every page in range asks
    for a slice that starts before the end of the leads. *)
Theorem leads_pages_cover (t : Z) :
  (0 <= t)%Z ->
  (totalPages t = 0%Z <-> t = 0%Z) /\
  (forall i, (0 <= i < t)%Z ->
     (1 <= i / leadsPerPage + 1 <= totalPages t)%Z /\
     ((i / leadsPerPage) * leadsPerPage <= i < (i / leadsPerPage) * leadsPerPage + leadsPerPage)%Z) /\
  (forall p, (1 <= p <= totalPages t)%Z -> (0 <= (p - 1) * leadsPerPage < t)%Z).
Proof.
  intros Ht; pose proof (totalPages_spec t) as S; unfold leadsPerPage in *.
  split; [lia|]; split.
  - intros i Hi; pose proof (Z.div_mod i 20 ltac:(lia)) as D; pose proof (Z.mod_pos_bound i 20 ltac:(lia)) as B.
    lia.
  - intros p Hp; lia.
Qed.

Lemma leads_pages_cover_witness :
  (totalPages 41 = 0%Z <-> 41%Z = 0%Z) /\
  (forall i, (0 <= i < 41)%Z ->
     (1 <= i / leadsPerPage + 1 <= totalPages 41)%Z /\
     ((i / leadsPerPage) * leadsPerPage <= i < (i / leadsPerPage) * leadsPerPage + leadsPerPage)%Z) /\
  (forall p, (1 <= p <= totalPages 41)%Z -> (0 <= (p - 1) * leadsPerPage < 41)%Z).
Proof. apply (leads_pages_cover 41); lia. Defined.

Lemma pageNum_first (tp page i : Z) : pageNum tp page i = (window_first tp page + i)%Z.
Proof.
  unfold pageNum, window_first.
  destruct (tp <=? 5)%Z, (page <=? 3)%Z, (tp - 2 <=? page)%Z; lia.
Qed.

Lemma window_first_bounds (tp page : Z) :
  (1 <= window_first tp page)%Z /\ (window_first tp page + Z.min 5 tp - 1 <= tp)%Z /\
  ((1 <= page <= tp)%Z ->
   (window_first tp page <= page <= window_first tp page + Z.min 5 tp - 1)%Z).
Proof.
  unfold window_first.
  destruct (Z.leb_spec tp 5), (Z.leb_spec page 3), (Z.leb_spec (tp - 2) page); lia.
Qed.

Lemma pageNum_bounds (tp page i : Z) :
  (0 <= i < Z.min 5 tp)%Z -> (1 <= pageNum tp page i <= tp)%Z.
Proof.
  rewrite pageNum_first; pose proof (window_first_bounds tp page); lia.
Qed.

(** X4. The numbered page buttons are [min(5, totalPages)] consecutive page
    numbers, all between 1 and [totalPages], whatever the current page; the
    current page is among them exactly when it is itself in that range. *)
Theorem page_buttons_window (tp page : Z) :
  (exists first, page_buttons tp page =
                 map (fun i => (first + Z.of_nat i)%Z) (seq 0 (Z.to_nat (Z.min 5 tp))) /\
                 (1 <= first)%Z /\ (first + Z.min 5 tp - 1 <= tp)%Z) /\
  (In page (page_buttons tp page) <-> (1 <= page <= tp)%Z).
Proof.
  assert (E : page_buttons tp page =
              map (fun i => (window_first tp page + Z.of_nat i)%Z) (seq 0 (Z.to_nat (Z.min 5 tp)))).
  { unfold page_buttons; apply map_ext; intros i; apply pageNum_first. }
  destruct (window_first_bounds tp page) as (B1 & B2 & B3).
  split; [exists (window_first tp page); tauto|].
  rewrite E, in_map_iff; split.
  - intros (i & Hi & Hs); apply in_seq in Hs; lia.
  - intros Hp; specialize (B3 Hp).
    exists (Z.to_nat (page - window_first tp page)); split; [lia|].
    apply in_seq; lia.
Qed.

Lemma leads_page_step_page (st : leads_page) (ev : leads_page_event) :
  (1 <= lp_page st)%Z ->
  (1 <= lp_page (fst (leads_page_step st ev)))%Z /\
  (forall u, snd (leads_page_step st ev) = Some u ->
     exists f p, u = fetchLeads_url f p /\ (0 <= (p - 1) * leadsPerPage)%Z) /\
  (match ev with LPPrev | LPNext | LPPage _ => True | _ => False end ->
   (lp_page st <= totalPages (lp_totalLeads st))%Z ->
   (lp_page (fst (leads_page_step st ev)) <= totalPages (lp_totalLeads (fst (leads_page_step st ev))))%Z).
Proof.
  intros H1.
  assert (SF : forall f p, (1 <= p)%Z ->
            (1 <= lp_page (fst (set_filter_page st f p)))%Z /\
            (forall u, snd (set_filter_page st f p) = Some u ->
               exists f' p', u = fetchLeads_url f' p' /\ (0 <= (p' - 1) * leadsPerPage)%Z) /\
            lp_totalLeads (fst (set_filter_page st f p)) = lp_totalLeads st /\
            (lp_page (fst (set_filter_page st f p)) = p \/ lp_page (fst (set_filter_page st f p)) = lp_page st)).
  { intros f p Hp; unfold set_filter_page.
    destruct (String.eqb f (lp_filter st) && Z.eqb p (lp_page st)); simpl.
    - split; [exact H1|]; split; [discriminate|]; split; [reflexivity | right; reflexivity].
    - split; [exact Hp|]; split; [|split; [reflexivity | left; reflexivity]].
      intros u [= <-]; exists f, p; split; [reflexivity | unfold leadsPerPage; lia]. }
  assert (NO : (1 <= lp_page st)%Z /\
               (forall u, @None string = Some u -> exists f p, u = fetchLeads_url f p /\
                                                  (0 <= (p - 1) * leadsPerPage)%Z))
    by (split; [exact H1 | discriminate]).
  destruct ev as [f|total|m| | |i]; simpl.
  - destruct (SF f 1%Z) as (A & B & _); [lia|]; split; [exact A|]; split; [exact B | tauto].
  - split; [exact H1|]; split; [discriminate | tauto].
  - split; [exact H1|]; split; [discriminate | tauto].
  - destruct (pagination_shown st && negb (Z.eqb (lp_page st) 1)); simpl; [|split; [exact H1|]; split; [discriminate|]; intros; assumption].
    destruct (SF (lp_filter st) (Z.max 1 (lp_page st - 1))) as (A & B & C & D); [lia|].
    split; [exact A|]; split; [exact B|]; intros _ Hle; rewrite C; lia.
  - destruct (pagination_shown st && negb (Z.eqb (lp_page st) (totalPages (lp_totalLeads st)))) eqn:G;
      simpl; [|split; [exact H1|]; split; [discriminate|]; intros; assumption].
    apply andb_true_iff in G as [G _]; unfold pagination_shown in G.
    apply andb_true_iff in G as [_ G]; apply Z.ltb_lt in G.
    destruct (SF (lp_filter st) (Z.min (totalPages (lp_totalLeads st)) (lp_page st + 1)))
      as (A & B & C & D); [lia|].
    split; [exact A|]; split; [exact B|]; intros _ Hle; rewrite C; lia.
  - destruct (pagination_shown st && (Z.of_nat i <? Z.min 5 (totalPages (lp_totalLeads st)))%Z) eqn:G;
      simpl; [|split; [exact H1|]; split; [discriminate|]; intros; assumption].
    apply andb_true_iff in G as [_ G]; apply Z.ltb_lt in G.
    pose proof (pageNum_bounds (totalPages (lp_totalLeads st)) (lp_page st) (Z.of_nat i)) as PB.
    destruct (SF (lp_filter st) (pageNum (totalPages (lp_totalLeads st)) (lp_page st) (Z.of_nat i)))
      as (A & B & C & D); [lia|].
    split; [exact A|]; split; [exact B|]; intros _ Hle; rewrite C; lia.
Qed.

Lemma run_leads_page_requests (evs : list leads_page_event) : forall st,
  (1 <= lp_page st)%Z ->
  (1 <= lp_page (fst (run_leads_page st evs)))%Z /\
  (forall u, In u (snd (run_leads_page st evs)) ->
     exists f p, u = fetchLeads_url f p /\ (0 <= (p - 1) * leadsPerPage)%Z).
Proof.
  induction evs as [|ev evs IH]; intros st H1; simpl; [split; [exact H1 | contradiction]|].
  destruct (leads_page_step_page st ev H1) as (A & B & _).
  destruct (leads_page_step st ev) as [st1 r]; simpl in *.
  destruct (IH st1 A) as [IA IB].
  destruct (run_leads_page st1 evs) as [st2 rs]; simpl in *.
  split; [exact IA|].
  destruct r as [u'|]; [|exact IB].
  intros u [<-|Hu]; [apply B; reflexivity | exact (IB u Hu)].
Qed.

(** X5. Whatever the user clicks and whatever the responses, the leads page
    stays on a page number of at least 1 and every leads request it sends
    (the one at mount included) asks for a slice starting at a nonnegative
    offset; the Previous, Next and numbered buttons keep a page that is in
    range in range. *)
Theorem leads_page_stays_in_range (evs : list leads_page_event) (st : leads_page) (ev : leads_page_event) :
  (1 <= lp_page (fst (run_leads_page leads_page_init evs)))%Z /\
  (forall u, In u (leads_page_mount_request :: snd (run_leads_page leads_page_init evs)) ->
     exists f p, u = fetchLeads_url f p /\ (0 <= (p - 1) * leadsPerPage)%Z) /\
  (match ev with LPPrev | LPNext | LPPage _ => True | _ => False end ->
   (1 <= lp_page st <= totalPages (lp_totalLeads st))%Z ->
   (1 <= lp_page (fst (leads_page_step st ev)) <=
         totalPages (lp_totalLeads (fst (leads_page_step st ev))))%Z).
Proof.
  destruct (run_leads_page_requests evs leads_page_init) as [A B]; [simpl; lia|].
  split; [exact A|]; split.
  - intros u [<-|Hu]; [|exact (B u Hu)].
    exists "all", 1%Z; split; [reflexivity | unfold leadsPerPage; lia].
  - intros Hev [H1 H2]; destruct (leads_page_step_page st ev H1) as (C & _ & D).
    split; [exact C | exact (D Hev H2)].
Qed.

(** ** Lead table *)

(** X6. Every row's "View Details" button navigates to that lead's page: the
    "not found" alert of [handleViewDetails] is raised only for an id that
    is not in the table, so never from the table's own buttons. *)
Theorem lead_table_rows_navigate (leads : list fe_lead) (leadId : Z) :
  row_actions leads = map (fun lead => RouterPush ("/leads/" ++ js_int (fl_id lead))) leads /\
  ((exists m, handleViewDetails leads leadId = Alert m) <-> ~ In leadId (map fl_id leads)).
Proof.
  split.
  - unfold row_actions; apply map_ext_in; intros l Hl; unfold handleViewDetails.
    replace (existsb (fun lead => Z.eqb (fl_id lead) (fl_id l)) leads) with true; [reflexivity|].
    symmetry; apply existsb_exists; exists l; split; [exact Hl | apply Z.eqb_refl].
  - unfold handleViewDetails.
    destruct (existsb (fun lead => Z.eqb (fl_id lead) leadId) leads) eqn:E.
    + apply existsb_exists in E as (l & Hl & Hq); apply Z.eqb_eq in Hq.
      split; [intros (m & [=]) | intros Hn; exfalso; apply Hn, in_map_iff; eauto].
    + split; [intros _ Hin | intros _; eexists; reflexivity].
      apply in_map_iff in Hin as (l & Hq & Hl).
      assert (existsb (fun lead => Z.eqb (fl_id lead) leadId) leads = true)
        by (apply existsb_exists; exists l; split; [exact Hl | apply Z.eqb_eq; exact Hq]).
      congruence.
Qed.

(** ** Dates and state colours *)

Lemma date_time_not_na (a b : string) : a ++ " " ++ b <> "N/A".
Proof. destruct a as [|a1 [|a2 [|a3 [|a4 a']]]]; simpl; congruence. Qed.

(** X7. [formatDate] shows ["N/A"] exactly when the date is missing or empty,
    whatever the locale's date and time formatting. *)
Theorem formatDate_na (toLocaleDateString toLocaleTimeString : string -> string)
    (dateString : option string) :
  formatDate toLocaleDateString toLocaleTimeString dateString = "N/A" <->
  dateString = None \/ dateString = Some EmptyString.
Proof.
  destruct dateString as [d|]; simpl; [|split; auto].
  destruct (String.eqb_spec d EmptyString) as [->|Hd].
  - split; auto.
  - split; [intros H; exfalso; exact (date_time_not_na _ _ H)|].
    intros [[=]|[= Hd']]; contradiction.
Qed.

(** X8. [getStateColor] gives each of the five known states its own colour and
    exactly the other strings (another case, the empty string) the grey
    default. *)
Theorem getStateColor_classes (state : string) :
  (getStateColor state = "bg-gray-100 text-gray-800" <->
   ~ In state ["new"; "engaged"; "booked"; "opted_out"; "unresponsive"]) /\
  NoDup (map getStateColor ["new"; "engaged"; "booked"; "opted_out"; "unresponsive"] ++
         ["bg-gray-100 text-gray-800"])%list.
Proof.
  split; [|repeat constructor; simpl; intuition discriminate].
  unfold getStateColor.
  destruct (String.eqb_spec state "new") as [->|N1]; [split; [discriminate | intros H; exfalso; apply H; simpl; auto]|].
  destruct (String.eqb_spec state "engaged") as [->|N2]; [split; [discriminate | intros H; exfalso; apply H; simpl; auto]|].
  destruct (String.eqb_spec state "booked") as [->|N3]; [split; [discriminate | intros H; exfalso; apply H; simpl; auto]|].
  destruct (String.eqb_spec state "opted_out") as [->|N4]; [split; [discriminate | intros H; exfalso; apply H; simpl; auto]|].
  destruct (String.eqb_spec state "unresponsive") as [->|N5]; [split; [discriminate | intros H; exfalso; apply H; simpl; auto 6]|].
  split; [intros _ | reflexivity].
  simpl; intuition.
Qed.

(** ** Lead detail page *)

(** X9. A lead request that throws (network failure, body that is not JSON)
    shows its own error message. A failed or empty lead lookup shows the
    error "Failed to fetch lead details". Once the lead is found, a
    conversations request that throws shows its message instead of the
    lead; otherwise the lead is shown with the conversations of the response
    when that request succeeds, and with the conversations the page held
    before the fetch (those of a previously shown lead) when it fails. *)
Theorem lead_detail_fetch (st : lead_detail) (cresp : fetched (option (list lead_conversation))) :
  (forall m, m <> EmptyString ->
     lead_detail_render (fetchLeadData st (Threw m) cresp) = LDError m) /\
  (forall status leads,
     (response_ok status = false \/ leads = None \/ leads = Some []) ->
     lead_detail_render (fetchLeadData st (Responded status leads) cresp) =
     LDError "Failed to fetch lead details") /\
  (forall status l rest m, response_ok status = true -> m <> EmptyString ->
     lead_detail_render (fetchLeadData st (Responded status (Some (l :: rest))) (Threw m)) =
     LDError m) /\
  (forall status l rest cstatus cdata, response_ok status = true ->
     lead_detail_render (fetchLeadData st (Responded status (Some (l :: rest)))
                                       (Responded cstatus cdata)) =
     LDShown l (if response_ok cstatus then match cdata with Some cs => cs | None => [] end
                else ld_conversations st)).
Proof.
  unfold fetchLeadData, lead_detail_render; simpl; split; [|split; [|split]].
  - intros m Hm; destruct (String.eqb_spec m EmptyString); [contradiction | reflexivity].
  - intros status leads H.
    destruct H as [->|[->| ->]]; [|destruct (response_ok status)..]; reflexivity.
  - intros status l rest m Hok Hm; rewrite Hok; simpl.
    destruct (String.eqb_spec m EmptyString); [contradiction | reflexivity].
  - intros status l rest cstatus cdata Hok; rewrite Hok; reflexivity.
Qed.

(** ** Conversation page *)

(** X10. A request that throws (network failure, or a body that is not JSON,
    which [response.json()] rejects before [ok] is checked) reports the
    thrown message and keeps the previously loaded conversation. When the
    body is JSON: a successful response whose body is [null] or has a
    missing or zero [conversation_id] is reported as "not found" (the
    previously loaded conversation is kept but hidden behind the error); a
    failed response reports its status; a nonzero [conversation_id] loads
    the conversation and clears the error. Loading always ends. *)
Theorem conversation_fetch_outcomes (st : conv_page) :
  (forall m, let st' := fetchConversation st (Threw m) in
   cp_error st' = Some m /\ cp_conversation st' = cp_conversation st /\ cp_loading st' = false) /\
  (forall status data, response_ok status = true ->
   (data = None \/ exists d, data = Some d /\ (cd_conversation_id d = None \/ cd_conversation_id d = Some 0%Z)) ->
   let st' := fetchConversation st (Responded status data) in
   cp_error st' = Some ("Conversation with ID " ++ cp_id st ++ " not found. Please check the conversations list.") /\
   cp_conversation st' = cp_conversation st /\ cp_loading st' = false) /\
  (forall status data, response_ok status = false ->
   cp_error (fetchConversation st (Responded status data)) =
   Some ("Failed to fetch conversation: " ++ js_int status)) /\
  (forall status data d i, response_ok status = true -> data = Some d ->
   cd_conversation_id d = Some i -> i <> 0%Z ->
   cp_conversation (fetchConversation st (Responded status data)) = Some d /\
   cp_error (fetchConversation st (Responded status data)) = None) /\
  (forall resp, cp_loading (fetchConversation st resp) = false).
Proof.
  unfold fetchConversation; split; [|split; [|split; [|split]]].
  - intros m; simpl; auto.
  - intros status data Hok H; rewrite Hok; simpl.
    destruct H as [->|(d & -> & [Hi|Hi])]; [| rewrite Hi | rewrite Hi]; simpl; auto.
  - intros status data Hok; rewrite Hok; reflexivity.
  - intros status data d i Hok -> Hi Hn; rewrite Hok, Hi; simpl.
    destruct (Z.eqb_spec i 0); [contradiction | split; reflexivity].
  - intros [m|status [d|]]; simpl; [reflexivity| |destruct (response_ok status); reflexivity].
    destruct (response_ok status); simpl; [|reflexivity].
    destruct (cd_conversation_id d) as [i|]; [destruct (i =? 0)%Z|]; reflexivity.
Qed.

Lemma empty_trim_start y : js_string_empty (trim_start y) = forallb js_whitespace y.
Proof. induction y as [|u y IH]; simpl; [reflexivity|]; destruct (js_whitespace u); simpl; auto. Qed.

Lemma forallb_trim_start y : forallb js_whitespace (trim_start y) = forallb js_whitespace y.
Proof. induction y as [|u y IH]; simpl; [reflexivity|]; destruct (js_whitespace u) eqn:W; simpl; rewrite ?W; auto. Qed.

Lemma empty_rev (x : js_string) : js_string_empty (rev x) = js_string_empty x.
Proof. destruct x as [|u x]; simpl; [reflexivity|]; destruct (rev x); reflexivity. Qed.

Lemma forallb_rev_js f (x : js_string) : forallb f (rev x) = forallb f x.
Proof.
  induction x as [|u x IH]; simpl; [reflexivity|].
  rewrite forallb_app, IH; simpl; rewrite andb_true_r, andb_comm; reflexivity.
Qed.

(** [!s.trim()] holds exactly when every code unit of [s] is JavaScript
    whitespace. *)
Lemma trim_empty s : js_string_empty (trim s) = forallb js_whitespace s.
Proof.
  unfold trim, trim_end; rewrite empty_rev, empty_trim_start, forallb_rev_js, forallb_trim_start.
  reflexivity.
Qed.

(** X11. [handleSendMessage] does nothing, not even the lookup, for a blank
    message (every code unit JavaScript whitespace, U+3000 or U+00A0
    included) or before a conversation is loaded. The only POST it issues
    goes to [/send-message] with the [lead_id] of the first conversation the
    lookup returned and the message exactly as typed (untrimmed). Once it
    settles it is no longer sending, and either the send succeeded (the input
    is cleared, the error reset and the conversation refetched) or an error
    is set and the typed message is kept. *)
Theorem send_message_outcomes (st : conv_page) (lookup : fetched (option (list Z)))
    (send : fetched (option string)) :
  (forallb js_whitespace (cp_newMessage st) = true \/ cp_conversation st = None ->
   handleSendMessage st lookup send = (st, [])) /\
  (forall url form, In (FPost url form) (snd (handleSendMessage st lookup send)) ->
   url = "http://localhost:8000/send-message" /\
   exists status leadId rest, lookup = Responded status (Some (leadId :: rest)) /\
     response_ok status = true /\
     form = [("lead_id", of_ascii (js_int leadId)); ("message", cp_newMessage st)]) /\
  (forallb js_whitespace (cp_newMessage st) = false -> cp_conversation st <> None ->
   let st' := fst (handleSendMessage st lookup send) in
   cp_sending st' = false /\
   ((cp_newMessage st' = [] /\ cp_error st' = None /\ cp_loading st' = true /\
     exists q1 q2, snd (handleSendMessage st lookup send) =
                   [q1; q2; FGet (conversation_messages_url (cp_id st))]) \/
    (cp_newMessage st' = cp_newMessage st /\ cp_error st' <> None))).
Proof.
  unfold handleSendMessage; rewrite trim_empty; split; [|split].
  - intros [H|H]; rewrite H; [reflexivity|].
    destruct (forallb js_whitespace (cp_newMessage st)); reflexivity.
  - destruct (forallb js_whitespace (cp_newMessage st) || negb (isSome (cp_conversation st)));
      [simpl; tauto|].
    destruct lookup as [m|status data]; [simpl; (intros ? ? Hin; simpl in Hin; intuition discriminate)|].
    destruct (response_ok status) eqn:Hok; simpl; [|(intros ? ? Hin; simpl in Hin; intuition discriminate)].
    destruct data as [[|leadId rest]|]; [simpl; (intros ? ? Hin; simpl in Hin; intuition discriminate) | | simpl; (intros ? ? Hin; simpl in Hin; intuition discriminate)].
    intros url form Hin.
    assert (Hq : FPost url form = FPost "http://localhost:8000/send-message"
                   [("lead_id", of_ascii (js_int leadId)); ("message", cp_newMessage st)]).
    { destruct send as [m|s2 detail]; [|destruct (response_ok s2)]; simpl in Hin;
        intuition congruence. }
    injection Hq as -> ->; split; [reflexivity|].
    exists status, leadId, rest; repeat split; assumption.
  - intros Hb Hc; rewrite Hb.
    destruct (cp_conversation st) as [c|]; [|contradiction]; simpl.
    destruct lookup as [m|status data]; simpl.
    { split; [reflexivity|]; right; split; [reflexivity | discriminate]. }
    destruct (response_ok status); simpl.
    2: { split; [reflexivity|]; right; split; [reflexivity | discriminate]. }
    destruct data as [[|leadId rest]|]; simpl.
    1, 3: split; [reflexivity|]; right; split; [reflexivity | discriminate].
    destruct send as [m|s2 detail]; simpl.
    { split; [reflexivity|]; right; split; [reflexivity | discriminate]. }
    destruct (response_ok s2); simpl.
    2: { split; [reflexivity|]; right; split; [reflexivity | discriminate]. }
    split; [reflexivity|]; left; split; [reflexivity|]; split; [reflexivity|]; split; [reflexivity|].
    eexists; eexists; reflexivity.
Qed.

(** X12. On the conversation page as the user can drive it, a message is only
    ever posted from a loaded conversation that is neither ["opted_out"] nor
    ["booked"], with a message that is not all JavaScript whitespace, and no
    send in progress. *)
Theorem conv_page_posts_only_when_open (st : conv_page) (ev : conv_page_event) (url : string)
    (form : list (string * js_string)) :
  In (FPost url form) (snd (conv_page_step st ev)) ->
  exists c, cp_conversation st = Some c /\ cd_state c <> "opted_out" /\ cd_state c <> "booked" /\
    forallb js_whitespace (cp_newMessage st) = false /\ cp_sending st = false.
Proof.
  destruct ev as [s|l snd'|r]; simpl.
  - destruct (send_form_shown st && negb (cp_sending st)); simpl; tauto.
  - destruct (send_form_shown st && negb (cp_sending st) &&
              negb (js_string_empty (trim (cp_newMessage st)))) eqn:G; [|simpl; tauto].
    intros _.
    apply andb_true_iff in G as [G G3]; apply andb_true_iff in G as [G G2].
    rewrite trim_empty in G3.
    unfold send_form_shown in G; apply andb_true_iff in G as [_ G].
    destruct (cp_conversation st) as [c|]; [|discriminate].
    apply andb_true_iff in G as [G4 G5].
    exists c; split; [reflexivity|].
    split; [intros E; rewrite E in G4; discriminate|].
    split; [intros E; rewrite E in G5; discriminate|].
    split; [destruct (forallb js_whitespace (cp_newMessage st)); [discriminate | reflexivity]|].
    destruct (cp_sending st); [discriminate | reflexivity].
  - destruct (cp_loading st); simpl; tauto.
Qed.

Lemma conv_page_posts_only_when_open_witness :
  exists c, cp_conversation demo_conv_page = Some c /\ cd_state c <> "opted_out" /\
    cd_state c <> "booked" /\ forallb js_whitespace (cp_newMessage demo_conv_page) = false /\
    cp_sending demo_conv_page = false.
Proof.
  exact (conv_page_posts_only_when_open demo_conv_page
           (CPSubmit (Responded 200%Z (Some [1%Z])) (Responded 200%Z None))
           "http://localhost:8000/send-message"
           [("lead_id", of_ascii "1"); ("message", of_ascii "hello")]
           ltac:(simpl; auto)).
Defined.

(** ** Export page *)

(** X13. An export's outcome does not depend on what the page showed before (a
    previous path or error is cleared), the page is no longer loading, it
    never shows an error and a path at once, a path is shown only from a
    successful response's [file_path], and a failed response always shows a
    non-empty error message. *)
Theorem export_outcome (st st0 : export_page) (resp : fetched export_body) :
  let st' := fst (handleExport st resp) in
  st' = fst (handleExport st0 resp) /\
  snd (handleExport st resp) = FPost (API_BASE_URL ++ "/export-leads") [] /\
  ep_loading st' = false /\
  (ep_error st' = None \/ ep_exportUrl st' = None) /\
  (forall p, ep_exportUrl st' = Some p ->
     exists status b, resp = Responded status b /\ response_ok status = true /\ eb_file_path b = Some p) /\
  (forall status b, resp = Responded status b -> response_ok status = false ->
     truthy (ep_error st') = true).
Proof.
  unfold handleExport; destruct resp as [m|status b]; simpl.
  - repeat split; auto; [intros p [=] | intros ? ? [=]].
  - destruct (response_ok status) eqn:Hok; simpl.
    + repeat split; auto; [intros p Hp; exists status, b; auto | intros ? ? [= <- <-]; congruence].
    + repeat split; auto; [intros p [=]|].
      intros ? ? [= <- <-] _; unfold or_default.
      destruct (eb_detail b) as [d|]; [|reflexivity].
      destruct (String.eqb_spec d EmptyString) as [->|Hd]; [reflexivity|].
      simpl; apply negb_true_iff, String.eqb_neq; exact Hd.
Qed.

(** ** Import dialog as the user can drive it *)

Lemma modal_ui_success_idle (st : modal_state) (ev : modal_event) :
  (m_success st = true -> m_uploading st = false) ->
  (m_success (fst (modal_ui_step st ev)) = true -> m_uploading (fst (modal_ui_step st ev)) = false).
Proof.
  intros H; destruct ev as [fs| |ok d]; simpl.
  - destruct (m_success st || m_uploading st) eqn:G; simpl; [exact H|].
    apply orb_false_iff in G as [G1 G2].
    destruct fs as [|f fs]; simpl; [exact H|].
    destruct (negb (String.eqb (file_type f) "text/csv")); simpl; intros; assumption.
  - destruct (m_success st || m_uploading st || negb (isSome (m_file st))) eqn:G; simpl; [exact H|].
    apply orb_false_iff in G as [G _]; apply orb_false_iff in G as [G1 _].
    unfold handleSubmit; destruct (m_file st); simpl; rewrite G1; discriminate.
  - destruct (m_uploading st) eqn:U; simpl; [|intros; exact U].
    unfold handleResponse; destruct ok; simpl; intros; reflexivity.
Qed.

Lemma run_modal_ui_success_idle (evs : list modal_event) : forall st,
  (m_success st = true -> m_uploading st = false) ->
  (m_success (fst (run_modal_ui st evs)) = true -> m_uploading (fst (run_modal_ui st evs)) = false).
Proof.
  induction evs as [|ev evs IH]; intros st H; simpl; [exact H|].
  pose proof (modal_ui_success_idle st ev H) as H1.
  destruct (modal_ui_step st ev) as [st1 r]; simpl in H1.
  specialize (IH st1 H1); destruct (run_modal_ui st1 evs) as [st2 rs]; exact IH.
Qed.

Lemma run_modal_ui_frozen (evs : list modal_event) (st : modal_state) :
  m_success st = true -> m_uploading st = false -> run_modal_ui st evs = (st, []).
Proof.
  intros Hs Hu; induction evs as [|ev evs IH]; simpl; [reflexivity|].
  destruct ev as [fs| |ok d]; simpl; rewrite ?Hs, ?Hu; simpl; rewrite IH; reflexivity.
Qed.

(** X14. The import dialog never has two uploads in flight: a request is only
    issued when no upload is in progress and starts one, and while an upload
    is in progress nothing issues a request and only its response ends it.
    Once an import has succeeded, nothing the user does issues another
    request or changes the dialog. *)
Theorem import_single_upload (st st' : modal_state) (ev : modal_event) (r : request)
    (evs1 evs2 : list modal_event) :
  (modal_ui_step st ev = (st', Some r) ->
   m_uploading st = false /\ m_uploading st' = true /\ m_success st = false) /\
  (m_uploading st = true ->
   snd (modal_ui_step st ev) = None /\
   (m_uploading (fst (modal_ui_step st ev)) = false -> exists ok d, ev = ResponseArrived ok d)) /\
  (m_success (fst (run_modal_ui modal_init evs1)) = true ->
   run_modal_ui (fst (run_modal_ui modal_init evs1)) evs2 = (fst (run_modal_ui modal_init evs1), [])).
Proof.
  split; [|split].
  - destruct ev as [fs| |ok d]; simpl.
    + destruct (m_success st || m_uploading st); [discriminate|].
      intros [=].
    + destruct (m_success st || m_uploading st || negb (isSome (m_file st))) eqn:G; [discriminate|].
      apply orb_false_iff in G as [G _]; apply orb_false_iff in G as [G1 G2].
      unfold handleSubmit; destruct (m_file st); [|discriminate].
      intros [= <- _]; simpl; auto.
    + destruct (m_uploading st); [|discriminate].
      intros [=].
  - intros Hu; destruct ev as [fs| |ok d]; simpl; rewrite Hu, ?orb_true_r; simpl.
    + split; [reflexivity|]; rewrite Hu; discriminate.
    + split; [reflexivity|]; rewrite Hu; discriminate.
    + split; [reflexivity|]; intros _; eauto.
  - intros Hs; apply run_modal_ui_frozen; [exact Hs|].
    apply (run_modal_ui_success_idle evs1 modal_init); [discriminate | exact Hs].
Qed.
